(** * The RFC service: retrieval with fallback, and the two parsers

    A shallow embedding of [src/services/rfcService.ts].

    - JavaScript strings are sequences of UTF-16 code units: [jstring] is
      [list N].
    - Regular expressions are kept as syntax trees that mirror the literals
      of the source and are run by a backtracking matcher with the priorities
      of ECMAScript (leftmost start, greedy and lazy quantifiers, ordered
      alternation).
    - The markup tree is a rose tree of elements, text and comments, queried
      in document order as [querySelector] and [querySelectorAll] do.
    - [fetchRfc] runs in a state-and-exception monad over the service's cache,
      the requests sent, the console and a record of the inputs parsed.
    - [searchRfcs] and [getLatestRfcs] run in the same monad, over the same
      tree and matcher, with [encodeURIComponent] as ECMAScript defines it. *)

From Stdlib Require Import String Ascii NArith Lia.
From stdpp Require Import gmap list.
From Stdlib Require QArith Qround.

Set Default Proof Using "Type".

(** ** Strings *)

Definition char := N.
Definition jstring := list char.

Definition ch (a : ascii) : char := N_of_ascii a.

Definition LF : char := 10%N.
Definition CR : char := 13%N.
Definition SP : char := 32%N.

(** Reads a string the way a JavaScript literal is read: backslash followed
    by n, r, t or backslash is the escaped character. *)
Fixpoint unescape (l : list ascii) : jstring :=
  match l with
  | [] => []
  | "\"%char :: "n"%char :: t => LF :: unescape t
  | "\"%char :: "r"%char :: t => CR :: unescape t
  | "\"%char :: "t"%char :: t => 9%N :: unescape t
  | "\"%char :: "\"%char :: t => ch "\" :: unescape t
  | a :: t => ch a :: unescape t
  end.

Definition js (s : string) : jstring := unescape (list_ascii_of_string s).

(** WhiteSpace and LineTerminator of ECMAScript: what [trim] strips and what
    the class [\s] accepts. *)
Definition isLineTerminator (c : char) : bool :=
  ((c =? 10) || (c =? 13) || (c =? 8232) || (c =? 8233))%N.

Definition isWhiteSpace (c : char) : bool :=
  ((c =? 9) || (c =? 11) || (c =? 12) || (c =? 32) || (c =? 160)
   || (c =? 5760) || ((8192 <=? c) && (c <=? 8202)) || (c =? 8239)
   || (c =? 8287) || (c =? 12288) || (c =? 65279))%N.

Definition isSpace (c : char) : bool := isWhiteSpace c || isLineTerminator c.

Definition isDigit (c : char) : bool := ((48 <=? c) && (c <=? 57))%N.

Fixpoint trimStart (s : jstring) : jstring :=
  match s with
  | c :: t => if isSpace c then trimStart t else s
  | [] => []
  end.

Definition trimEnd (s : jstring) : jstring := rev (trimStart (rev s)).

Definition trim (s : jstring) : jstring := trimEnd (trimStart s).

(** [s.split('\n')]: always at least one piece. *)
Fixpoint split (sep : char) (s : jstring) : list jstring :=
  match s with
  | [] => [[]]
  | c :: t =>
      if (c =? sep)%N then [] :: split sep t
      else match split sep t with
           | piece :: pieces => (c :: piece) :: pieces
           | [] => [[c]]
           end
  end.

(** [pieces.join('\n')] *)
Fixpoint join (sep : char) (pieces : list jstring) : jstring :=
  match pieces with
  | [] => []
  | [p] => p
  | p :: ps => p ++ sep :: join sep ps
  end.

Fixpoint startsWith (s prefix : jstring) : bool :=
  match prefix, s with
  | [], _ => true
  | p :: prefix', c :: s' => (c =? p)%N && startsWith s' prefix'
  | _ :: _, [] => false
  end.

(** [s.replace(/\n/g, ' ')] *)
Definition replaceNewlines (s : jstring) : jstring :=
  map (fun c => if (c =? LF)%N then SP else c) s.

(** A string in a condition is true when it is not empty. *)
Definition truthy (s : jstring) : bool :=
  match s with [] => false | _ :: _ => true end.

(** ** Regular expressions *)

Module RegExp.

Inductive regex : Type :=
| Eps
| Chr (c : char)                 (* a pattern character *)
| Dot                            (* .  *)
| Digit                          (* \d *)
| Space                          (* \s *)
| Bol                            (* ^  *)
| Eol                            (* $  *)
| Seq (r1 r2 : regex)
| Alt (r1 r2 : regex)            (* r1|r2 *)
| Star (greedy : bool) (r : regex) (* r* and r*? *)
| Opt (r : regex)                (* r? *)
| Group (i : nat) (r : regex).   (* the i-th capturing parenthesis *)

(** r+ *)
Definition Plus (r : regex) : regex := Seq r (Star true r).

Definition seq (rs : list regex) : regex := foldr Seq Eps rs.

(** The characters of a literal, one after the other. *)
Definition Lit (s : string) : regex := seq (map Chr (js s)).

(** The flags the source uses: [i] and [s]. None of its expressions carries
    [m], so [^] and [$] only hold at the two ends of the input, and none
    that is matched with [String.prototype.match] carries [g] or [y], so
    every search starts at index 0. *)
Record flags := { ignoreCase : bool; dotAll : bool }.

(** Canonicalize of a code unit, on the ASCII letters. The patterns of the
    source hold ASCII characters only, and a code unit above 127 never
    canonicalizes to one below 128, so this decides the comparison. *)
Definition canonicalize (f : flags) (c : char) : char :=
  if ignoreCase f && (97 <=? c)%N && (c <=? 122)%N then (c - 32)%N else c.

Record mstate := { pos : nat; rest : jstring; caps : list (nat * jstring) }.

Definition advance (s : mstate) (t : jstring) : mstate :=
  {| pos := S (pos s); rest := t; caps := caps s |}.

Definition step (p : char -> bool) (s : mstate) (k : mstate -> option mstate)
  : option mstate :=
  match rest s with
  | c :: t => if p c then k (advance s t) else None
  | [] => None
  end.

Notation "a <|> b" := (match a with Some x => Some x | None => b end)
  (at level 60, right associativity, only parsing).

(** The iterations of a star: [iter] matches the operand once, [k] is what
    follows the star, [n] bounds the iterations left. A greedy star tries
    one more iteration before it tries [k], a lazy one tries [k] first. An
    iteration that consumes nothing is rejected, as in RepeatMatcher. *)
Fixpoint starLoop (greedy : bool)
    (iter : mstate -> (mstate -> option mstate) -> option mstate)
    (k : mstate -> option mstate) (n : nat) (s : mstate) {struct n}
  : option mstate :=
  match n with
  | 0 => k s
  | S n' =>
      if greedy
      then iter s (fun s' => if decide (pos s < pos s')
                             then starLoop greedy iter k n' s' else None)
           <|> k s
      else k s
           <|> iter s (fun s' => if decide (pos s < pos s')
                                 then starLoop greedy iter k n' s' else None)
  end.

(** The backtracking matcher, in continuation-passing style: [k] is what
    remains to be matched after [r]. Every iteration of a star consumes a
    character, so a star started with [length rest + 1] iterations in hand
    never runs out of them. *)
Fixpoint rmatch (f : flags) (r : regex) (s : mstate)
    (k : mstate -> option mstate) {struct r} : option mstate :=
  match r with
  | Eps => k s
  | Chr c => step (fun x => (canonicalize f x =? canonicalize f c)%N) s k
  | Dot => step (fun x => dotAll f || negb (isLineTerminator x)) s k
  | Digit => step isDigit s k
  | Space => step isSpace s k
  | Bol => if decide (pos s = 0) then k s else None
  | Eol => match rest s with [] => k s | _ :: _ => None end
  | Seq r1 r2 => rmatch f r1 s (fun s' => rmatch f r2 s' k)
  | Alt r1 r2 => rmatch f r1 s k <|> rmatch f r2 s k
  | Star greedy r1 => starLoop greedy (rmatch f r1) k (S (length (rest s))) s
  | Opt r1 => rmatch f r1 s k <|> k s
  | Group i r1 =>
      rmatch f r1 s
        (fun s' =>
           k {| pos := pos s'; rest := rest s';
                caps := (i, take (pos s' - pos s) (rest s)) :: caps s' |})
  end.

(** The search of a match: the first index, from 0 up to the length of the
    input, at which the expression matches. *)
Fixpoint search (f : flags) (r : regex) (i : nat) (input : jstring)
  : option mstate :=
  rmatch f r {| pos := i; rest := input; caps := [] |} Some
  <|> match input with
      | [] => None
      | _ :: t => search f r (S i) t
      end.

Definition exec (f : flags) (r : regex) (input : jstring) : option mstate :=
  search f r 0 input.

(** [m[i]] of a match: [None] is [undefined]. *)
Definition group (i : nat) (m : mstate) : option jstring :=
  snd <$> List.find (fun c => Nat.eqb (fst c) i) (caps m).

(** [m && m[1]] as a condition, and then [m[1]]. *)
Definition capture1 (m : option mstate) : option jstring :=
  match m with
  | Some m' =>
      match group 1 m' with
      | Some g => if truthy g then Some g else None
      | None => None
      end
  | None => None
  end.

(** *** Vocabulary for the properties of the matcher *)

(** [s'] is [s] after some characters were consumed. *)
Definition extends (s s' : mstate) : Prop :=
  pos s <= pos s' /\ pos s' + length (rest s') = pos s + length (rest s).

(** A greedy star over a class of characters, without the bound: one more
    character of the class first, what follows the star otherwise. *)
Fixpoint greedyRun (p : char -> bool) (k : mstate -> option mstate)
    (i : nat) (cs : list (nat * jstring)) (r : jstring) : option mstate :=
  match r with
  | c :: t =>
      if p c
      then greedyRun p k (S i) cs t <|> k {| pos := i; rest := r; caps := cs |}
      else k {| pos := i; rest := r; caps := cs |}
  | [] => k {| pos := i; rest := []; caps := cs |}
  end.

(** A lazy star over a class of characters, without the bound: what follows
    the star first, one more character of the class otherwise. *)
Fixpoint lazyRun (p : char -> bool) (k : mstate -> option mstate)
    (i : nat) (cs : list (nat * jstring)) (r : jstring) : option mstate :=
  k {| pos := i; rest := r; caps := cs |}
  <|> match r with
      | c :: t => if p c then lazyRun p k (S i) cs t else None
      | [] => None
      end.

(** [s] starts with the characters of [w], case ignored. *)
Fixpoint startsWithIgnoreCase (s w : jstring) {struct w} : bool :=
  match w, s with
  | [], _ => true
  | p :: w', c :: s' =>
      (canonicalize {| ignoreCase := true; dotAll := false |} c
       =? canonicalize {| ignoreCase := true; dotAll := false |} p)%N
      && startsWithIgnoreCase s' w'
  | _ :: _, [] => false
  end.

(** [w], case ignored, occurs in [pre ++ after] from an index of [pre]. *)
Fixpoint occursWithin (w pre after : jstring) : bool :=
  match pre with
  | [] => false
  | _ :: pre' => startsWithIgnoreCase (pre ++ after) w || occursWithin w pre' after
  end.

Definition equalsIgnoreCase (a b : jstring) : Prop :=
  map (canonicalize {| ignoreCase := true; dotAll := false |}) a
  = map (canonicalize {| ignoreCase := true; dotAll := false |}) b.

End RegExp.

Import RegExp.

(** ** The data model *)

Module RfcMetadata.
Record t := mk {
  number : jstring;
  title : jstring;
  authors : list jstring;
  date : jstring;
  status : jstring;
  abstract : jstring;
  url : jstring
}.
End RfcMetadata.

Module Subsection.
Record t := mk { title : jstring; content : jstring }.
End Subsection.

Module RfcSection.
(** [subsections] is [None] where the source leaves it [undefined]. *)
Record t := mk {
  title : jstring;
  content : jstring;
  subsections : option (list Subsection.t)
}.
End RfcSection.

Record RfcContent := mkRfcContent {
  metadata : RfcMetadata.t;
  sections : list RfcSection.t;
  fullText : jstring
}.

(** ** parseTxtRfc *)

Module Txt.

Definition flags_i := {| ignoreCase := true; dotAll := false |}.
Definition flags_is := {| ignoreCase := true; dotAll := true |}.
Definition flags_none := {| ignoreCase := false; dotAll := false |}.

(** (?:\r?\n\r?\n|\r?\n\s*\r?\n) *)
Definition blankLine : regex :=
  Alt (seq [Opt (Chr CR); Chr LF; Opt (Chr CR); Chr LF])
      (seq [Opt (Chr CR); Chr LF; Star true Space; Opt (Chr CR); Chr LF]).

(** /(?:Title|Internet-Draft):\s*(.*?)(?:\r?\n\r?\n|\r?\n\s*\r?\n)/i *)
Definition titleRegex : regex :=
  seq [Alt (Lit "Title") (Lit "Internet-Draft"); Lit ":"; Star true Space;
       Group 1 (Star false Dot); blankLine].

(** /(?:Author|Authors):\s*(.*?)(?:\r?\n\r?\n|\r?\n\s*\r?\n)/is *)
Definition authorRegex : regex :=
  seq [Alt (Lit "Author") (Lit "Authors"); Lit ":"; Star true Space;
       Group 1 (Star false Dot); blankLine].

(** /(?:Date|Published):\s*(.*?)(?:\r?\n)/i *)
Definition dateRegex : regex :=
  seq [Alt (Lit "Date") (Lit "Published"); Lit ":"; Star true Space;
       Group 1 (Star false Dot); seq [Opt (Chr CR); Chr LF]].

(** /(?:Status of this Memo|Category):\s*(.*?)(?:\r?\n\r?\n|\r?\n\s*\r?\n)/is *)
Definition statusRegex : regex :=
  seq [Alt (Lit "Status of this Memo") (Lit "Category"); Lit ":";
       Star true Space; Group 1 (Star false Dot); blankLine].

(** /(?:Abstract)\s*(?:\r?\n)+\s*(.*?)(?:\r?\n\r?\n|\r?\n\s*\r?\n)/is *)
Definition abstractRegex : regex :=
  seq [Lit "Abstract"; Star true Space; Plus (seq [Opt (Chr CR); Chr LF]);
       Star true Space; Group 1 (Star false Dot); blankLine].

(** /^(?:\d+\.)+\s+(.+)$/ *)
Definition sectionRegex : regex :=
  seq [Bol; Plus (seq [Plus Digit; Chr (ch ".")]); Plus Space;
       Group 1 (Plus Dot); Eol].

(** [line.match(sectionRegex)] *)
Definition sectionMatch (line : jstring) : option mstate :=
  exec flags_none sectionRegex line.

Definition extractTitle (text rfcNumber : jstring) : jstring :=
  match capture1 (exec flags_i titleRegex text) with
  | Some g => trim g
  | None => js "RFC " ++ rfcNumber
  end.

Definition extractAuthors (text : jstring) : list jstring :=
  match capture1 (exec flags_is authorRegex text) with
  | Some g =>
      foldl (fun authors line =>
               let trimmedLine := trim line in
               if truthy trimmedLine && negb (startsWith trimmedLine (js "Authors:"))
               then authors ++ [trimmedLine] else authors)
            [] (split LF g)
  | None => []
  end.

Definition extractDate (text : jstring) : jstring :=
  match capture1 (exec flags_i dateRegex text) with
  | Some g => trim g
  | None => []
  end.

Definition extractStatus (text : jstring) : jstring :=
  match capture1 (exec flags_is statusRegex text) with
  | Some g => trim (replaceNewlines g)
  | None => []
  end.

Definition extractAbstract (text : jstring) : jstring :=
  match capture1 (exec flags_is abstractRegex text) with
  | Some g => trim (replaceNewlines g)
  | None => []
  end.

(** The variables of the section loop. *)
Record scan := mkScan {
  emitted : list RfcSection.t;
  currentSection : option jstring;
  currentContent : list jstring
}.

Definition scanStart : scan :=
  {| emitted := []; currentSection := None; currentContent := [] |}.

(** What the two [if]s around [sections.push] do. *)
Definition flush (st : scan) : list RfcSection.t :=
  match currentSection st with
  | Some t =>
      if bool_decide (0 < length (currentContent st))
      then emitted st ++ [RfcSection.mk t (join LF (currentContent st)) None]
      else emitted st
  | None => emitted st
  end.

(** One turn of the loop over the lines. *)
Definition scanLine (st : scan) (line : jstring) : scan :=
  match sectionMatch line with
  | Some m =>
      {| emitted := flush st;
         currentSection := Some (trim (default [] (group 1 m)));
         currentContent := [] |}
  | None =>
      match currentSection st with
      | Some _ =>
          {| emitted := emitted st;
             currentSection := currentSection st;
             currentContent := currentContent st ++ [line] |}
      | None => st
      end
  end.

Definition scanLines (lines : list jstring) : list RfcSection.t :=
  flush (foldl scanLine scanStart lines).

Definition parseTxtRfc (text rfcNumber url : jstring) : RfcContent :=
  let lines := split LF text in
  {| metadata :=
       RfcMetadata.mk rfcNumber (extractTitle text rfcNumber)
         (extractAuthors text) (extractDate text) (extractStatus text)
         (extractAbstract text) url;
     sections := scanLines lines;
     fullText := text |}.

(** *** Vocabulary for the properties of the section loop *)

Definition isHeader (line : jstring) : Prop := is_Some (sectionMatch line).

(** The title a header line gives: [sectionMatch[1].trim()]. *)
Definition headerTitle (line : jstring) : jstring :=
  match sectionMatch line with
  | Some m => trim (default [] (group 1 m))
  | None => []
  end.

(** What stands behind an emitted section: a header line, then a non-empty
    run of lines that are not headers, then the next header or, when
    [last] allows it, the end of the input. *)
Definition emittedFrom (last : bool) (lines : list jstring) (s : RfcSection.t)
  : Prop :=
  exists pre h body post,
    lines = pre ++ h :: body ++ post
    /\ isHeader h
    /\ RfcSection.title s = headerTitle h
    /\ body ≠ []
    /\ Forall (fun line => sectionMatch line = None) body
    /\ RfcSection.content s = join LF body
    /\ RfcSection.subsections s = None
    /\ ((last = true /\ post = []) \/ exists h' post', post = h' :: post' /\ isHeader h').

Definition scanInv (done : list jstring) (st : scan) : Prop :=
  Forall (emittedFrom false done) (emitted st)
  /\ match currentSection st with
     | None => currentContent st = []
     | Some t =>
         exists pre h,
           done = pre ++ h :: currentContent st /\ isHeader h /\ t = headerTitle h
           /\ Forall (fun line => sectionMatch line = None) (currentContent st)
     end.

(** *** Vocabulary for the properties of the abstract *)

(** [\r?\n] at the head of [s]: how many characters it takes and what
    follows it. *)
Definition lineBreak (s : jstring) : option (nat * jstring) :=
  match s with
  | c :: t =>
      if (c =? LF)%N then Some (1, t)
      else if (c =? CR)%N
           then match t with
                | d :: t' => if (d =? LF)%N then Some (2, t') else None
                | [] => None
                end
           else None
  | [] => None
  end.

(** [\s*\r?\n] matches at the head of [s]: white space up to a line
    feed. *)
Fixpoint breakAfterSpaces (s : jstring) : bool :=
  match s with
  | c :: t => (c =? LF)%N || (isSpace c && breakAfterSpaces t)
  | [] => false
  end.

(** A blank-line boundary, [\r?\n\r?\n] or [\r?\n\s*\r?\n], starts at the
    head of [s]. *)
Definition blankLineAt (s : jstring) : bool :=
  match lineBreak s with
  | Some (_, t) => breakAfterSpaces t
  | None => false
  end.


End Txt.

(** ** The markup tree *)

Module Dom.

#[local] Unset Elimination Schemes.

Inductive node : Type :=
| Text (data : jstring)
| Comment (data : jstring)
| Element (tagName : jstring) (classList : list jstring) (childNodes : list node).

#[local] Set Elimination Schemes.

(** A document is the list of the children of its root. *)
Definition document := list node.

(** [textContent] of an element: the data of its text descendants, in
    document order; comments contribute nothing. *)
Fixpoint textContent (n : node) : jstring :=
  match n with
  | Text d => d
  | Comment _ => []
  | Element _ _ children => flat_map textContent children
  end.

(** The selectors of the source: a tag name or a class, alone or below an
    ancestor, and comma-separated lists of these. *)
Inductive simple : Type :=
| Tag (name : jstring)
| Class (name : jstring).

Inductive selector : Type :=
| Simple (s : simple)
| Descendant (ancestor s : simple).

(** What a selector looks at in an element. *)
Definition label : Type := jstring * list jstring.

Definition matchesSimple (s : simple) (l : label) : bool :=
  match s with
  | Tag t => bool_decide (l.1 = t)
  | Class c => bool_decide (c ∈ l.2)
  end.

Definition matchesSelector (sel : selector) (ancestors : list label) (l : label)
  : bool :=
  match sel with
  | Simple s => matchesSimple s l
  | Descendant a s => matchesSimple s l && existsb (matchesSimple a) ancestors
  end.

Definition matchesAny (sels : list selector) (ancestors : list label) (l : label)
  : bool :=
  existsb (fun sel => matchesSelector sel ancestors l) sels.

(** An element together with the labels of its ancestors, nearest first. *)
Definition located : Type := list label * node.

(** The elements of the subtree of [n] that match, [n] included, in
    document order. *)
Fixpoint collect (sels : list selector) (ancestors : list label) (n : node)
  : list located :=
  match n with
  | Element tag classes children =>
      (if matchesAny sels ancestors (tag, classes) then [(ancestors, n)] else [])
      ++ flat_map (collect sels ((tag, classes) :: ancestors)) children
  | Text _ | Comment _ => []
  end.

(** [document.querySelectorAll(sels)] *)
Definition querySelectorAll (sels : list selector) (doc : document)
  : list located :=
  flat_map (collect sels []) doc.

(** [document.querySelector(sels)]: the first of the matches. *)
Definition querySelector (sels : list selector) (doc : document)
  : option located :=
  head (querySelectorAll sels doc).

(** [el.querySelectorAll(sels)]: the matching descendants of [el]. *)
Definition elQuerySelectorAll (sels : list selector) (el : located)
  : list located :=
  match el.2 with
  | Element tag classes children =>
      flat_map (collect sels ((tag, classes) :: el.1)) children
  | Text _ | Comment _ => []
  end.

(** [el.querySelector(sels)] *)
Definition elQuerySelector (sels : list selector) (el : located)
  : option located :=
  head (elQuerySelectorAll sels el).

(** [el?.textContent?.trim() || ''] *)
Definition trimmedText (el : option located) : jstring :=
  match el with
  | Some e => trim (textContent e.2)
  | None => []
  end.

Definition tag (name : string) : selector := Simple (Tag (js name)).
Definition class (name : string) : simple := Class (js name).

(** *** Vocabulary for the properties of the queries *)

(** The elements of the subtree of [n], [n] first, in document order. *)
Fixpoint descendantsOrSelf (ancestors : list label) (n : node) : list located :=
  match n with
  | Element tag classes children =>
      (ancestors, n) :: flat_map (descendantsOrSelf ((tag, classes) :: ancestors)) children
  | Text _ | Comment _ => []
  end.

Definition descendants (el : located) : list located :=
  match el.2 with
  | Element tag classes children =>
      flat_map (descendantsOrSelf ((tag, classes) :: el.1)) children
  | Text _ | Comment _ => []
  end.

Definition matchesLocated (sels : list selector) (el : located) : bool :=
  match el.2 with
  | Element tag classes _ => matchesAny sels el.1 (tag, classes)
  | Text _ | Comment _ => false
  end.

(** *** A serializer for the examples *)

Definition escapeText (s : jstring) : jstring :=
  flat_map (fun c =>
              if (c =? ch "&")%N then js "&amp;"
              else if (c =? ch "<")%N then js "&lt;"
              else if (c =? ch ">")%N then js "&gt;"
              else if (c =? 160)%N then js "&nbsp;"
              else [c]) s.

(** The serialization of a node: elements with their class attribute,
    escaped text, comments. *)
Fixpoint outerHTML (n : node) : jstring :=
  match n with
  | Text d => escapeText d
  | Comment d => js "<!--" ++ d ++ js "-->"
  | Element tag classes children =>
      js "<" ++ tag
      ++ (if bool_decide (classes = []) then []
          else js " class=" ++ [34%N] ++ join SP classes ++ [34%N])
      ++ js ">" ++ flat_map outerHTML children ++ js "</" ++ tag ++ js ">"
  end.

Definition serializeChildren (n : node) : jstring :=
  match n with
  | Element _ _ children => flat_map outerHTML children
  | Text _ | Comment _ => []
  end.

Definition el (name : string) (children : list node) : node :=
  Element (js name) [] children.

Definition txt (data : string) : node := Text (js data).

End Dom.

Import Dom.

(** ** Exceptions *)

Module JsError.
Record t := mk { name : jstring; message : jstring }.

(** [new Error(message)] *)
Definition Error (message : jstring) : t := mk (js "Error") message.

(** Error.prototype.toString, which a template literal calls. *)
Definition toString (e : t) : jstring :=
  if negb (truthy (name e)) then message e
  else if negb (truthy (message e)) then name e
  else name e ++ js ": " ++ message e.
End JsError.

Inductive outcome (A : Type) : Type :=
| Return (a : A)
| Throw (e : JsError.t).
Arguments Return {A} a.
Arguments Throw {A} e.

(** ** The service *)

(** The cache of the service object, the requests sent so far, what was
    written to the console, and the inputs handed to a parser so far. *)
Record state := mkState {
  cache : gmap jstring RfcContent;
  requests : list jstring;
  console : list jstring;
  parsed : list jstring
}.

Definition M (A : Type) : Type := state -> outcome A * state.

Definition ret {A} (a : A) : M A := fun st => (Return a, st).

Definition throw {A} (e : JsError.t) : M A := fun st => (Throw e, st).

Definition bind {A B} (m : M A) (k : A -> M B) : M B :=
  fun st =>
    match m st with
    | (Return a, st') => k a st'
    | (Throw e, st') => (Throw e, st')
    end.

(** [try { m } catch (e) { handler e }]: what [m] did to the state before it
    threw stays done. *)
Definition try_catch {A} (m : M A) (handler : JsError.t -> M A) : M A :=
  fun st =>
    match m st with
    | (Return a, st') => (Return a, st')
    | (Throw e, st') => handler e st'
    end.

(** A call of one of the two parsers on [input], with its outcome [o]. The
    call is recorded in [parsed]: the source keeps no such record, it is
    there to tell which calls parse. *)
Definition parsing {A} (input : jstring) (o : outcome A) : M A :=
  fun st =>
    (o, mkState (cache st) (requests st) (console st) (parsed st ++ [input])).

Notation "'let*' x ':=' m 'in' k" := (bind m (fun x => k))
  (at level 10, x name, m at level 100, k at level 200).

(** [this.cache.has(k) ? this.cache.get(k) : undefined] *)
Definition cache_get (k : jstring) : M (option RfcContent) :=
  fun st => (Return (cache st !! k), st).

(** [this.cache.set(k, v)] *)
Definition cache_set (k : jstring) (v : RfcContent) : M unit :=
  fun st =>
    (Return tt,
     mkState (<[k := v]> (cache st)) (requests st) (console st) (parsed st)).

(** [console.error(line)] *)
Definition console_error (line : jstring) : M unit :=
  fun st =>
    (Return tt,
     mkState (cache st) (requests st) (console st ++ [line]) (parsed st)).

Definition baseUrl : jstring := js "https://www.ietf.org/rfc".

Definition txtUrl (rfcNumber : jstring) : jstring :=
  baseUrl ++ js "/rfc" ++ rfcNumber ++ js ".txt".

Definition htmlUrl (rfcNumber : jstring) : jstring :=
  baseUrl ++ js "/rfc" ++ rfcNumber ++ js "/".

(** The line written to the console before the text variant is tried, and
    the error thrown when both variants failed. *)
Definition fallbackNotice (rfcNumber : jstring) : jstring :=
  js "Failed to fetch HTML format for RFC " ++ rfcNumber ++ js ", trying TXT format".

Definition compositeError (rfcNumber : jstring) (cause : JsError.t) : JsError.t :=
  JsError.Error (js "Failed to fetch RFC " ++ rfcNumber ++ js ": "
                 ++ JsError.toString cause).

Section Service.

(** The transport: what a GET of a URL answers, given the requests sent
    before it. *)
Variable respond : list jstring -> jstring -> outcome jstring.

(** The tree builder, [new JSDOM(html).window.document], and the
    serializer behind [innerHTML]. *)
Variable JSDOM : jstring -> outcome document.
Variable innerHTML : node -> jstring.

(** [await axios.get(url)], then [.data] *)
Definition axios_get (url : jstring) : M jstring :=
  fun st =>
    (respond (requests st) url,
     mkState (cache st) (requests st ++ [url]) (console st) (parsed st)).

(** *** parseHtmlRfc *)

Definition subsectionsOf (sectionEl : located) : list Subsection.t :=
  foldl (fun subsections subsectionEl =>
           let subsectionTitle :=
             trimmedText (elQuerySelector [tag "h3"; tag "h4"; tag "h5"] subsectionEl) in
           let subsectionContent := innerHTML subsectionEl.2 in
           if truthy subsectionTitle
           then subsections ++ [Subsection.mk subsectionTitle subsectionContent]
           else subsections)
        [] (elQuerySelectorAll [tag "section"] sectionEl).

Definition sectionsOf (doc : document) : list RfcSection.t :=
  foldl (fun sections sectionEl =>
           let sectionTitle :=
             trimmedText (elQuerySelector [tag "h2"; tag "h3"; tag "h4"] sectionEl) in
           let sectionContent := innerHTML sectionEl.2 in
           let subsections := subsectionsOf sectionEl in
           if truthy sectionTitle
           then sections ++
                  [RfcSection.mk sectionTitle sectionContent
                     (if bool_decide (0 < length subsections)
                      then Some subsections else None)]
           else sections)
        [] (querySelectorAll [tag "section"] doc).

Definition authorsOf (doc : document) : list jstring :=
  foldl (fun authors authorEl =>
           let authorName := trimmedText (Some authorEl) in
           if truthy authorName then authors ++ [authorName] else authors)
        []
        (querySelectorAll [Descendant (class "authors") (class "author")] doc).

(** The body of [parseHtmlRfc] after the tree is built. *)
Definition parseDocument (doc : document) (rfcNumber url : jstring) : RfcContent :=
  let h1 := trimmedText (querySelector [tag "h1"] doc) in
  let title := if truthy h1 then h1 else js "RFC " ++ rfcNumber in
  let authors := authorsOf doc in
  let date := trimmedText (querySelector [Simple (class "pubdate")] doc) in
  let abstract := trimmedText (querySelector [Simple (class "abstract")] doc) in
  let status := trimmedText (querySelector [Simple (class "status")] doc) in
  let sections := sectionsOf doc in
  let fullText := trimmedText (querySelector [tag "body"] doc) in
  {| metadata := RfcMetadata.mk rfcNumber title authors date status abstract url;
     sections := sections;
     fullText := fullText |}.

Definition parseHtmlRfc (html rfcNumber url : jstring) : outcome RfcContent :=
  match JSDOM html with
  | Return doc => Return (parseDocument doc rfcNumber url)
  | Throw e => Throw e
  end.

(** *** fetchRfc *)

Definition fetchRfc (rfcNumber : jstring) : M RfcContent :=
  let* cached := cache_get rfcNumber in
  match cached with
  | Some rfc => ret rfc
  | None =>
      try_catch
        (let* htmlResponse := axios_get (htmlUrl rfcNumber) in
         let* rfc := parsing htmlResponse
                       (parseHtmlRfc htmlResponse rfcNumber (htmlUrl rfcNumber)) in
         let* _ := cache_set rfcNumber rfc in
         ret rfc)
        (fun error =>
           try_catch
             (let* _ := console_error
                          (js "Failed to fetch HTML format for RFC " ++ rfcNumber
                           ++ js ", trying TXT format") in
              let* txtResponse := axios_get (txtUrl rfcNumber) in
              let* rfc := parsing txtResponse
                            (Return (Txt.parseTxtRfc txtResponse rfcNumber
                                       (txtUrl rfcNumber))) in
              let* _ := cache_set rfcNumber rfc in
              ret rfc)
             (fun txtError =>
                throw (JsError.Error
                         (js "Failed to fetch RFC " ++ rfcNumber ++ js ": "
                          ++ JsError.toString txtError))))
  end.

(** *** Vocabulary for the properties of the service *)

(** How the attempt at the HTML variant ends in a state: the request, then
    the parse of what it answered. *)
Definition htmlAttempt (rfcNumber : jstring) (st : state) : outcome RfcContent :=
  match respond (requests st) (htmlUrl rfcNumber) with
  | Return html => parseHtmlRfc html rfcNumber (htmlUrl rfcNumber)
  | Throw e => Throw e
  end.

(** What the attempt at the HTML variant hands to the HTML parser: the
    answer to the request, if there is one. *)
Definition htmlParsed (rfcNumber : jstring) (st : state) : list jstring :=
  match respond (requests st) (htmlUrl rfcNumber) with
  | Return html => [html]
  | Throw _ => []
  end.

(** What the request of the text variant, sent after the one of the HTML
    variant, answers. *)
Definition txtResponse (rfcNumber : jstring) (st : state) : outcome jstring :=
  respond (requests st ++ [htmlUrl rfcNumber]) (txtUrl rfcNumber).

(** The title the source computes for a section element, and for a
    subsection element, in terms of the elements below it in document
    order. *)
Definition firstHeading (sels : list selector) (el : located) : jstring :=
  trimmedText (head (List.filter (matchesLocated sels) (descendants el))).

Definition sectionOf (sectionEl : located) : RfcSection.t :=
  let subsections := subsectionsOf sectionEl in
  RfcSection.mk (firstHeading [tag "h2"; tag "h3"; tag "h4"] sectionEl)
    (innerHTML sectionEl.2)
    (if bool_decide (0 < length subsections) then Some subsections else None).

Definition subsectionOf (subsectionEl : located) : Subsection.t :=
  Subsection.mk (firstHeading [tag "h3"; tag "h4"; tag "h5"] subsectionEl)
    (innerHTML subsectionEl.2).

(** A run of calls, one after the other, whatever each of them yields. *)
Definition fetchAll (rfcNumbers : list jstring) (st : state) : state :=
  foldl (fun st' n => (fetchRfc n st').2) st rfcNumbers.

End Service.

(** ** Inputs of the examples *)

Module Examples.

(** A tree builder known on the inputs of a table; it throws elsewhere. *)
Definition treeBuilder (table : list (jstring * document)) (html : jstring)
  : outcome document :=
  match List.find (fun entry => bool_decide (entry.1 = html)) table with
  | Some entry => Return entry.2
  | None => Throw (JsError.Error (js "no tree for this markup"))
  end.

(** A section whose first heading in document order is an h3, and which
    has an h2 further down. *)
Definition rankMarkup : jstring :=
  js "<section><h3>Details</h3><p>More.</p><h2>Overview</h2></section>".

Definition rankDocument : document :=
  [el "html"
     [el "head" [];
      el "body"
        [el "section"
           [el "h3" [txt "Details"]; el "p" [txt "More."];
            el "h2" [txt "Overview"]]]]].

(** Markup without any text. *)
Definition emptyMarkup : jstring := js "<p></p>".

Definition emptyDocument : document :=
  [el "html" [el "head" []; el "body" [el "p" []]]].

Definition exampleJSDOM : jstring -> outcome document :=
  treeBuilder [(rankMarkup, rankDocument); (emptyMarkup, emptyDocument)].


Definition notFound : JsError.t :=
  JsError.mk (js "AxiosError") (js "Request failed with status code 404").


Definition rfc2616Text : jstring :=
  js "Abstract\n\nThe Hypertext Transfer Protocol.\n\n1. Introduction\n\n   HTTP has been in use since 1990.\n".

Definition textOnly (sent : list jstring) (url : jstring) : outcome jstring :=
  if bool_decide (url = txtUrl (js "2616")) then Return rfc2616Text
  else Throw notFound.

Definition freshState : state := mkState ∅ [] [] [].

End Examples.

(** ** Vocabulary for the further properties *)

(** The title a line gives when it is a header. *)
Definition headerTitleOf (line : jstring) : option jstring :=
  (fun m => trim (default [] (group 1 m))) <$> Txt.sectionMatch line.

(** A string that neither starts nor ends with white space. *)
Definition noOuterSpace (s : jstring) : Prop :=
  isSpace <$> head s ≠ Some true /\ isSpace <$> last s ≠ Some true.

(** The test and the value of the loop over the lines of the author block. *)
Definition authorLine (line : jstring) : bool :=
  truthy (trim line) && negb (startsWith (trim line) (js "Authors:")).

(** The shape of the expressions of the labelled fields,
    [(?:a|b):\s*(.*?)term]. *)
Definition labelled (a b : string) (term : regex) : regex :=
  seq [Alt (Lit a) (Lit b); Lit ":"; Star true Space; Group 1 (Star false Dot); term].

(** What [.] accepts under the flags [f]. *)
Definition dotClass (f : flags) (c : char) : bool :=
  dotAll f || negb (isLineTerminator c).


(** None of the words occurs in [pre ++ after] from an index of [pre]. *)
Definition labelFree (words : list string) (pre after : jstring) : bool :=
  forallb (fun w => negb (occursWithin (js w) pre after)) words.

(** An expression that reads the same under all flags: no letter, no dot. *)
Fixpoint flagFree (r : regex) : bool :=
  match r with
  | Chr c => (c <? 65)%N
  | Dot => false
  | Seq r1 r2 | Alt r1 r2 => flagFree r1 && flagFree r2
  | Star _ r1 | Opt r1 | Group _ r1 => flagFree r1
  | Eps | Digit | Space | Bol | Eol => true
  end.

(** [\r?\n] starts at the head of [s]. *)
Definition lineBreakAt (s : jstring) : bool :=
  match Txt.lineBreak s with Some _ => true | None => false end.


(** The labels the metadata expressions of the text parser look for. *)
Definition metadataLabels : list string :=
  ["Title"; "Internet-Draft"; "Author"; "Date"; "Published";
   "Status of this Memo"; "Category"; "Abstract"]%string.

(** Every document of the cache sits under its own number, and was fetched
    from one of the two URLs of that number. *)
Definition cacheKeyed (st : state) : Prop :=
  forall (k : jstring) (rfc : RfcContent),
    cache st !! k = Some rfc ->
    RfcMetadata.number (metadata rfc) = k
    /\ (RfcMetadata.url (metadata rfc) = htmlUrl k
        \/ RfcMetadata.url (metadata rfc) = txtUrl k).

(** A transport that only serves the HTML variant of RFC 7230. *)
Definition htmlOnly (sent : list jstring) (url : jstring) : outcome jstring :=
  if bool_decide (url = htmlUrl (js "7230")) then Return Examples.rankMarkup
  else Throw Examples.notFound.

(** A section with a section inside it. *)
Definition nestedDocument : document :=
  [el "html"
     [el "head" [];
      el "body"
        [el "section"
           [el "h2" [txt "Outer"];
            el "section" [el "h3" [txt "Inner"]; el "p" [txt "Text."]]]]]].

(** ** searchRfcs and getLatestRfcs *)

(** *** encodeURIComponent *)

Module Uri.

(** The characters [encodeURIComponent] leaves as they are: letters, digits
    and the marks. *)
Definition isUnescaped (c : char) : bool :=
  ((65 <=? c) && (c <=? 90) || (97 <=? c) && (c <=? 122) || (48 <=? c) && (c <=? 57))%N
  || bool_decide (c ∈ js "-_.!~*'()").

Definition isLeadSurrogate (c : char) : bool := ((55296 <=? c) && (c <=? 56319))%N.

Definition isTrailSurrogate (c : char) : bool := ((56320 <=? c) && (c <=? 57343))%N.

(** The code point of a surrogate pair. *)
Definition codePoint (lead trail : char) : N :=
  ((lead - 55296) * 1024 + (trail - 56320) + 65536)%N.

(** The octets of the UTF-8 encoding of a code point. *)
Definition utf8 (cp : N) : list N :=
  if (cp <? 128)%N then [cp]
  else if (cp <? 2048)%N
       then [N.lor 192 (N.shiftr cp 6); N.lor 128 (N.land cp 63)]
       else if (cp <? 65536)%N
            then [N.lor 224 (N.shiftr cp 12);
                  N.lor 128 (N.land (N.shiftr cp 6) 63);
                  N.lor 128 (N.land cp 63)]
            else [N.lor 240 (N.shiftr cp 18);
                  N.lor 128 (N.land (N.shiftr cp 12) 63);
                  N.lor 128 (N.land (N.shiftr cp 6) 63);
                  N.lor 128 (N.land cp 63)].

Definition hexDigit (d : N) : char := if (d <? 10)%N then (48 + d)%N else (55 + d)%N.

(** An octet as a percent sign and two upper-case hexadecimal digits. *)
Definition percent (octet : N) : jstring :=
  [ch "%"; hexDigit (N.shiftr octet 4); hexDigit (N.land octet 15)].

Definition URIError : JsError.t := JsError.mk (js "URIError") (js "URI malformed").

Definition prepend (head : jstring) (o : outcome jstring) : outcome jstring :=
  match o with
  | Return tail => Return (head ++ tail)
  | Throw e => Throw e
  end.

(** Encode of ECMAScript with the unescaped set of [encodeURIComponent]: a
    surrogate without its partner throws. *)
Fixpoint encodeURIComponent (s : jstring) : outcome jstring :=
  match s with
  | [] => Return []
  | c :: t =>
      if isUnescaped c then prepend [c] (encodeURIComponent t)
      else if isLeadSurrogate c
           then match t with
                | d :: t' =>
                    if isTrailSurrogate d
                    then prepend (flat_map percent (utf8 (codePoint c d)))
                           (encodeURIComponent t')
                    else Throw URIError
                | [] => Throw URIError
                end
           else if isTrailSurrogate c then Throw URIError
                else prepend (flat_map percent (utf8 c)) (encodeURIComponent t)
  end.

End Uri.

(** *** Strings and expressions of the two listings *)

(** [s.replace(w, '')] for a string [w]: without the first occurrence
    of [w]. *)
Fixpoint removeFirst (w s : jstring) : jstring :=
  if startsWith s w then drop (length w) s
  else match s with
       | c :: t => c :: removeFirst w t
       | [] => []
       end.

(** [s.replace(r, '')] for an expression without the flag [g]: without the
    first match of [r]. *)
Fixpoint replaceFrom (f : flags) (r : regex) (i : nat) (input : jstring) : jstring :=
  match rmatch f r {| pos := i; rest := input; caps := [] |} Some with
  | Some m => rest m
  | None =>
      match input with
      | c :: t => c :: replaceFrom f r (S i) t
      | [] => []
      end
  end.

Definition replaceFirst (f : flags) (r : regex) (input : jstring) : jstring :=
  replaceFrom f r 0 input.

(** /RFC\s+(\d+)/i *)
Definition rfcMatchRegex : regex :=
  seq [Lit "RFC"; Plus Space; Group 1 (Plus Digit)].

(** /RFC\s+\d+:\s*/i *)
Definition rfcPrefixRegex : regex :=
  seq [Lit "RFC"; Plus Space; Plus Digit; Lit ":"; Star true Space].

(** *** Queries with a compound selector *)

(** The elements of the subtree of [n] that [p] accepts, given the labels of
    their ancestors, in document order. *)
Fixpoint collectWhere (p : list label -> label -> bool) (ancestors : list label)
    (n : node) : list located :=
  match n with
  | Element tag classes children =>
      (if p ancestors (tag, classes) then [(ancestors, n)] else [])
      ++ flat_map (collectWhere p ((tag, classes) :: ancestors)) children
  | Text _ | Comment _ => []
  end.

Definition querySelectorAllWhere (p : list label -> label -> bool) (doc : document)
  : list located :=
  flat_map (collectWhere p []) doc.

(** table.table tr *)
Definition tableRow (ancestors : list label) (l : label) : bool :=
  bool_decide (l.1 = js "tr")
  && existsb (fun a => bool_decide (a.1 = js "table") && bool_decide (js "table" ∈ a.2))
       ancestors.

(** *** Numbers *)

(** A number of JavaScript, as far as a comparison needs it: a finite double
    is a rational. *)
Inductive jsNumber : Type :=
| Finite (q : QArith_base.Q)
| PosInfinity
| NegInfinity
| NaN.

(** [count >= limit], for the count of a loop. *)
Definition reached (count : nat) (limit : jsNumber) : bool :=
  match limit with
  | Finite q => QArith_base.Qle_bool q (QArith_base.inject_Z (Z.of_nat count))
  | NegInfinity => true
  | PosInfinity | NaN => false
  end.

(** An outcome, in the monad of the service. *)
Definition lift {A} (o : outcome A) : M A := fun st => (o, st).

Section Listings.

Variable respond : list jstring -> jstring -> outcome jstring.
Variable JSDOM : jstring -> outcome document.

(** [el.getAttribute(name)]: the tree keeps the classes of an element only,
    so the other attributes are looked up here; [None] is [null]. *)
Variable getAttribute : node -> jstring -> option jstring.

(** *** searchRfcs *)

(** The loop over the results of the search page. *)
Definition searchResults (doc : document) : list RfcMetadata.t :=
  foldl (fun results result =>
           match elQuerySelector [Descendant (Tag (js "h4")) (Tag (js "a"))] result with
           | None => results
           | Some titleElement =>
               let titleText := trimmedText (Some titleElement) in
               let url := default [] (getAttribute titleElement.2 (js "href")) in
               match exec Txt.flags_i rfcMatchRegex titleText with
               | None => results
               | Some rfcMatch =>
                   let rfcNumber := default [] (group 1 rfcMatch) in
                   let descriptionElement :=
                     elQuerySelector [Simple (class "snippet")] result in
                   let description := trimmedText descriptionElement in
                   results ++
                     [RfcMetadata.mk rfcNumber
                        (trim (replaceFirst Txt.flags_i rfcPrefixRegex titleText))
                        [] [] [] description
                        (if startsWith url (js "http") then url
                         else js "https://www.ietf.org" ++ url)]
               end
           end)
        [] (querySelectorAll [Simple (class "search-listing-content")] doc).

Definition searchRfcs (keyword : jstring) : M (list RfcMetadata.t) :=
  try_catch
    (let* query := lift (Uri.encodeURIComponent keyword) in
     let* data := axios_get respond (js "https://www.ietf.org/search/?query=" ++ query) in
     let* doc := lift (JSDOM data) in
     ret (searchResults doc))
    (fun error =>
       throw (JsError.Error (js "Failed to search for RFCs: " ++ JsError.toString error))).

(** *** getLatestRfcs *)

(** The loop over the rows of the table: [results] and [count] are the two
    variables of the loop, and the value is [results] when the loop ends. *)
Fixpoint latestLoop (limit : jsNumber) (rfcElements : list located)
    (results : list RfcMetadata.t) (count : nat) : list RfcMetadata.t :=
  match rfcElements with
  | [] => results
  | element :: more =>
      if reached count limit then results
      else
        match elQuerySelectorAll [tag "td"] element with
        | cell0 :: cell1 :: cell2 :: _ =>
            match elQuerySelector [tag "a"] cell0 with
            | None => latestLoop limit more results count
            | Some rfcLink =>
                let rfcNumber :=
                  trim (removeFirst (js "RFC") (trim (textContent rfcLink.2))) in
                let title := trimmedText (Some cell1) in
                let date := trimmedText (Some cell2) in
                if truthy rfcNumber
                then latestLoop limit more
                       (results ++
                          [RfcMetadata.mk rfcNumber title [] date [] []
                             (js "https://www.ietf.org/rfc/rfc" ++ rfcNumber ++ js ".txt")])
                       (S count)
                else latestLoop limit more results count
            end
        | _ => latestLoop limit more results count
        end
  end.

(** [limit] is [None] when the call leaves it out. *)
Definition getLatestRfcs (limit : option jsNumber) : M (list RfcMetadata.t) :=
  let limit := default (Finite (QArith_base.inject_Z 10)) limit in
  try_catch
    (let* data := axios_get respond (js "https://www.ietf.org/standards/rfcs/") in
     let* doc := lift (JSDOM data) in
     ret (latestLoop limit (querySelectorAllWhere tableRow doc) [] 0))
    (fun error =>
       throw (JsError.Error (js "Failed to get latest RFCs: " ++ JsError.toString error))).

(** *** Vocabulary for the properties of the listings *)

Definition searchUrl (query : jstring) : jstring :=
  js "https://www.ietf.org/search/?query=" ++ query.

Definition latestUrl : jstring := js "https://www.ietf.org/standards/rfcs/".

Definition searchError (cause : JsError.t) : JsError.t :=
  JsError.Error (js "Failed to search for RFCs: " ++ JsError.toString cause).

Definition latestError (cause : JsError.t) : JsError.t :=
  JsError.Error (js "Failed to get latest RFCs: " ++ JsError.toString cause).

(** The state after one more request. *)
Definition requested (url : jstring) (st : state) : state :=
  mkState (cache st) (requests st ++ [url]) (console st) (parsed st).

(** What the loop of [searchRfcs] makes of one result of the page, if it
    keeps it. *)
Definition searchEntry (result : located) : option RfcMetadata.t :=
  titleElement ← elQuerySelector [Descendant (Tag (js "h4")) (Tag (js "a"))] result;
  rfcMatch ← exec Txt.flags_i rfcMatchRegex (trimmedText (Some titleElement));
  Some (RfcMetadata.mk (default [] (group 1 rfcMatch))
          (trim (replaceFirst Txt.flags_i rfcPrefixRegex (trimmedText (Some titleElement))))
          [] [] []
          (trimmedText (elQuerySelector [Simple (class "snippet")] result))
          (let url := default [] (getAttribute titleElement.2 (js "href")) in
           if startsWith url (js "http") then url else js "https://www.ietf.org" ++ url)).

(** What the loop of [getLatestRfcs] makes of one row of the table, if it
    keeps it. *)
Definition latestEntry (element : located) : option RfcMetadata.t :=
  match elQuerySelectorAll [tag "td"] element with
  | cell0 :: cell1 :: cell2 :: _ =>
      rfcLink ← elQuerySelector [tag "a"] cell0;
      let rfcNumber := trim (removeFirst (js "RFC") (trim (textContent rfcLink.2))) in
      if truthy rfcNumber
      then Some (RfcMetadata.mk rfcNumber (trimmedText (Some cell1)) []
                   (trimmedText (Some cell2)) [] [] (txtUrl rfcNumber))
      else None
  | _ => None
  end.

(** The number of entries a limit lets through; [None] when it lets all of
    them through. *)
Definition allowance (limit : jsNumber) : option nat :=
  match limit with
  | Finite q => Some (Z.to_nat (Qround.Qceiling q))
  | NegInfinity => Some 0
  | PosInfinity | NaN => None
  end.

End Listings.

(** *** Inputs of the examples of the listings *)

(** A search page with a result for an RFC and one for another page. *)
Definition searchMarkup : jstring := js "<html>search</html>".

Definition searchHit : node :=
  Element (js "div") [js "search-listing-content"]
    [el "h4" [el "a" [txt " RFC 2616: Hypertext Transfer Protocol "]];
     Element (js "p") [js "snippet"] [txt " HTTP/1.1 "]].

Definition searchDocument : document :=
  [el "html"
     [el "head" [];
      el "body"
        [searchHit;
         Element (js "div") [js "search-listing-content"]
           [el "h4" [el "a" [txt "About the IETF"]]]]]].

(** The page of the latest RFCs: a header row and two rows. *)
Definition latestMarkup : jstring := js "<html>latest</html>".

Definition latestDocument : document :=
  [el "html"
     [el "head" [];
      el "body"
        [Element (js "table") [js "table"]
           [el "tr" [el "th" [txt "Number"]; el "th" [txt "Title"]; el "th" [txt "Date"]];
            el "tr" [el "td" [el "a" [txt "RFC 9110"]]; el "td" [txt "HTTP Semantics"];
                     el "td" [txt "June 2022"]];
            el "tr" [el "td" [el "a" [txt "RFC 9111"]]; el "td" [txt "HTTP Caching"];
                     el "td" [txt "June 2022"]]]]]].

Definition listingJSDOM : jstring -> outcome document :=
  Examples.treeBuilder [(searchMarkup, searchDocument); (latestMarkup, latestDocument)].

(** A transport that serves the two pages. *)
Definition listingSite (sent : list jstring) (url : jstring) : outcome jstring :=
  if bool_decide (url = js "https://www.ietf.org/search/?query=http%20semantics")
  then Return searchMarkup
  else if bool_decide (url = js "https://www.ietf.org/standards/rfcs/")
       then Return latestMarkup
       else Throw Examples.notFound.

(** Attributes in which every link leads to the same path. *)
Definition samePath (n : node) (name : jstring) : option jstring :=
  if bool_decide (name = js "href") then Some (js "/rfc/rfc2616/") else None.

(** A character that stands for itself in a query string, or the percent
    sign of an escape. *)
Definition querySafe (c : char) : bool := Uri.isUnescaped c || (c =? ch "%")%N.

(** The shape of an entry of the search listing. *)
Definition searchShaped (r : RfcMetadata.t) : Prop :=
  RfcMetadata.number r ≠ []
  /\ Forall (fun c => isDigit c = true) (RfcMetadata.number r)
  /\ noOuterSpace (RfcMetadata.title r)
  /\ RfcMetadata.authors r = [] /\ RfcMetadata.date r = [] /\ RfcMetadata.status r = []
  /\ noOuterSpace (RfcMetadata.abstract r)
  /\ startsWith (RfcMetadata.url r) (js "http") = true.

(** The shape of an entry of the listing of the latest RFCs. *)
Definition latestShaped (r : RfcMetadata.t) : Prop :=
  RfcMetadata.number r ≠ []
  /\ noOuterSpace (RfcMetadata.number r)
  /\ noOuterSpace (RfcMetadata.title r)
  /\ RfcMetadata.authors r = []
  /\ noOuterSpace (RfcMetadata.date r)
  /\ RfcMetadata.status r = [] /\ RfcMetadata.abstract r = []
  /\ RfcMetadata.url r = txtUrl (RfcMetadata.number r).

(** * Properties *)

(** ** Strings *)

Lemma split_cons_ne (c : char) (s : jstring) :
  c ≠ LF -> exists piece pieces,
    split LF s = piece :: pieces /\ split LF (c :: s) = (c :: piece) :: pieces.
Proof.
  intros Hc. simpl. destruct (N.eqb_spec c LF) as [->|_]; [done|].
  destruct s as [|d s]; simpl; [by eexists _, _|].
  destruct (d =? LF)%N; [by eexists _, _|].
  destruct (split LF s); by eexists _, _.
Qed.

Lemma split_app_line (line rest : jstring) :
  LF ∉ line -> split LF (line ++ LF :: rest) = line :: split LF rest.
Proof.
  induction line as [|c line IH]; intros Hnot.
  - done.
  - assert (c ≠ LF) as Hc by (intros ->; apply Hnot; left).
    assert (LF ∉ line) as Hl by (intros ?; apply Hnot; by right).
    destruct (split_cons_ne c (line ++ LF :: rest) Hc) as (p & ps & E1 & E2).
    rewrite <- app_comm_cons, E2. rewrite (IH Hl) in E1. by simplify_eq.
Qed.

Lemma split_line (line : jstring) : LF ∉ line -> split LF line = [line].
Proof.
  induction line as [|c line IH]; intros Hnot; [done|].
  assert (c ≠ LF) as Hc by (intros ->; apply Hnot; left).
  assert (LF ∉ line) as Hl by (intros ?; apply Hnot; by right).
  destruct (split_cons_ne c line Hc) as (p & ps & E1 & E2).
  rewrite E2. rewrite (IH Hl) in E1. by simplify_eq.
Qed.

(** Splitting what [join] built gives the lines back. *)
Lemma split_join (lines : list jstring) :
  lines ≠ [] -> Forall (fun l => LF ∉ l) lines -> split LF (join LF lines) = lines.
Proof.
  induction lines as [|l [|l' lines] IH]; intros Hne Hall; [done| |].
  - simpl. apply split_line. by inversion Hall.
  - change (join LF (l :: l' :: lines)) with (l ++ LF :: join LF (l' :: lines)).
    inversion Hall; subst. rewrite split_app_line by done.
    f_equal. by apply IH.
Qed.

Lemma truthy_nonempty (s : jstring) : truthy s = true <-> s ≠ [].
Proof. by destruct s. Qed.

(** ** The matcher *)

Module RegExpFacts.

(** The matcher only continues from states that extend the one it started
    from, so only the values of the continuation there matter. *)
Lemma starLoop_ext (g : bool)
    (iter : mstate -> (mstate -> option mstate) -> option mstate) :
  (forall s k1 k2, (forall s', extends s s' -> k1 s' = k2 s') -> iter s k1 = iter s k2) ->
  forall (n : nat) (s : mstate) (k1 k2 : mstate -> option mstate),
    (forall s', extends s s' -> k1 s' = k2 s') ->
    starLoop g iter k1 n s = starLoop g iter k2 n s.
Proof.
  intros Hiter. induction n as [|n IH]; intros s k1 k2 Hk.
  - simpl. apply Hk. split; lia.
  - assert (k1 s = k2 s) as Hs by (apply Hk; split; lia).
    assert (iter s (fun s' => if decide (pos s < pos s')
                              then starLoop g iter k1 n s' else None)
            = iter s (fun s' => if decide (pos s < pos s')
                                then starLoop g iter k2 n s' else None)) as Hone.
    { apply Hiter. intros s' Hs'. destruct (decide (pos s < pos s')); [|done].
      apply IH. intros s'' Hs''. apply Hk.
      destruct Hs' as [? ?], Hs'' as [? ?]. split; lia. }
    cbn [starLoop]. rewrite Hone, Hs. done.
Qed.

Lemma rmatch_ext (f : flags) (r : regex) :
  forall (s : mstate) (k1 k2 : mstate -> option mstate),
    (forall s', extends s s' -> k1 s' = k2 s') ->
    rmatch f r s k1 = rmatch f r s k2.
Proof.
  assert (forall p s k1 k2,
             (forall s', extends s s' -> k1 s' = k2 s') -> step p s k1 = step p s k2)
    as Hstep.
  { intros p s k1 k2 Hk. unfold step. destruct (rest s) as [|c t] eqn:Hr; [done|].
    destruct (p c); [|done]. apply Hk. unfold extends, advance. simpl.
    rewrite Hr. simpl. lia. }
  induction r as [|c| | | | | |r1 IH1 r2 IH2|r1 IH1 r2 IH2|g r1 IH1|r1 IH1|i r1 IH1];
    intros s k1 k2 Hk; cbn [rmatch]; try (by apply Hstep).
  - apply Hk. split; lia.
  - destruct (decide (pos s = 0)); [|done]. apply Hk. split; lia.
  - destruct (rest s); [|done]. apply Hk. split; lia.
  - apply IH1. intros s' Hs'. apply IH2. intros s'' Hs''. apply Hk.
    destruct Hs' as [? ?], Hs'' as [? ?]. split; lia.
  - by rewrite (IH1 s k1 k2), (IH2 s k1 k2).
  - by apply starLoop_ext.
  - rewrite (IH1 s k1 k2) by done. rewrite (Hk s); [done|]. split; lia.
  - apply IH1. intros s' Hs'. apply Hk. done.
Qed.

(** The bound of a star is never reached: with more iterations in hand than
    characters left, one more changes nothing. *)
Lemma starLoop_fuel (f : flags) (g : bool) (r : regex) (k : mstate -> option mstate) :
  forall (n : nat) (s : mstate),
    length (rest s) < n ->
    starLoop g (rmatch f r) k (S n) s = starLoop g (rmatch f r) k n s.
Proof.
  induction n as [|n IH]; intros s Hn; [lia|].
  assert (rmatch f r s (fun s' => if decide (pos s < pos s')
                                  then starLoop g (rmatch f r) k (S n) s' else None)
          = rmatch f r s (fun s' => if decide (pos s < pos s')
                                    then starLoop g (rmatch f r) k n s' else None))
    as Hone.
  { apply rmatch_ext. intros s' [Hle Hlen].
    destruct (decide (pos s < pos s')); [|done]. apply IH. lia. }
  change (starLoop g (rmatch f r) k (S (S n)) s)
    with (if g
          then match rmatch f r s
                       (fun s' => if decide (pos s < pos s')
                                  then starLoop g (rmatch f r) k (S n) s' else None)
               with Some x => Some x | None => k s end
          else match k s with
               | Some x => Some x
               | None => rmatch f r s
                           (fun s' => if decide (pos s < pos s')
                                      then starLoop g (rmatch f r) k (S n) s' else None)
               end).
  by rewrite Hone.
Qed.

Lemma rmatch_star_fuel (f : flags) (g : bool) (r : regex) (k : mstate -> option mstate)
    (s : mstate) (n : nat) :
  length (rest s) < n ->
  starLoop g (rmatch f r) k n s = rmatch f (Star g r) s k.
Proof.
  intros Hn. cbn [rmatch].
  induction n as [|n IH]; [lia|].
  destruct (decide (length (rest s) < n)) as [Hlt|Hge].
  - rewrite starLoop_fuel by done. by apply IH.
  - by replace n with (length (rest s)) by lia.
Qed.

(** With enough iterations in hand, a star over a class of characters is
    [greedyRun] or [lazyRun]. *)
Lemma starLoop_greedy (p : char -> bool) (k : mstate -> option mstate) (r : jstring) :
  forall (n i : nat) (cs : list (nat * jstring)),
    length r < n ->
    starLoop true (step p) k n {| pos := i; rest := r; caps := cs |}
    = greedyRun p k i cs r.
Proof.
  induction r as [|c t IH]; intros n i cs Hn;
    (destruct n as [|n]; [simpl in Hn; lia|]); simpl; unfold step; simpl; [done|].
  destruct (p c); [|done]. unfold advance. simpl.
  destruct (decide (i < S i)); [|lia].
  rewrite IH; [done|]. simpl in Hn. lia.
Qed.

Lemma starLoop_lazy (p : char -> bool) (k : mstate -> option mstate) (r : jstring) :
  forall (n i : nat) (cs : list (nat * jstring)),
    length r < n ->
    starLoop false (step p) k n {| pos := i; rest := r; caps := cs |}
    = lazyRun p k i cs r.
Proof.
  induction r as [|c t IH]; intros n i cs Hn;
    (destruct n as [|n]; [simpl in Hn; lia|]); simpl; unfold step; simpl; [done|].
  destruct (k _); [done|].
  destruct (p c); [|done]. unfold advance. simpl.
  destruct (decide (i < S i)); [|lia].
  rewrite IH; [done|]. simpl in Hn. lia.
Qed.

Lemma rmatch_star_space (f : flags) (s : mstate) (k : mstate -> option mstate) :
  rmatch f (Star true Space) s k = greedyRun isSpace k (pos s) (caps s) (rest s).
Proof.
  destruct s as [i r cs]. simpl.
  change (fun s k => rmatch f Space s k) with (step isSpace).
  apply (starLoop_greedy isSpace k r (S (length r))). lia.
Qed.


(** A greedy run goes as far as the class goes, and tries what follows
    there first. *)
Lemma greedyRun_max (p : char -> bool) (k : mstate -> option mstate)
    (ws r : jstring) (i : nat) (cs : list (nat * jstring)) (m : mstate) :
  Forall (fun c => p c = true) ws ->
  k {| pos := length ws + i; rest := r; caps := cs |} = Some m ->
  match r with c :: _ => p c = false | [] => True end ->
  greedyRun p k i cs (ws ++ r) = Some m.
Proof.
  intros Hws. revert i. induction Hws as [|c ws Hc _ IH]; intros i Hk Hr; simpl.
  - destruct r as [|c t]; simpl in *; [done|]. by rewrite Hr.
  - rewrite Hc. rewrite IH; [done| |done].
    by replace (length ws + S i) with (S (length ws) + i) by lia.
Qed.



(** In a comparison with a pattern character that is not a letter, the
    case does not matter. *)
Lemma canonicalize_control (f : flags) (x c : char) :
  (c < 65)%N -> (canonicalize f x =? canonicalize f c)%N = (x =? c)%N.
Proof.
  intros Hc. unfold canonicalize.
  destruct (ignoreCase f); simpl; [|done].
  destruct (N.leb_spec 97 c); [lia|]. simpl.
  destruct (N.leb_spec 97 x); simpl; [|done].
  destruct (N.leb_spec x 122); simpl; [|done].
  destruct (N.eqb_spec (x - 32) c), (N.eqb_spec x c); try done; lia.
Qed.

Lemma rmatch_control (f : flags) (c : char) (s : mstate) (k : mstate -> option mstate) :
  (c < 65)%N ->
  rmatch f (Chr c) s k
  = match rest s with
    | x :: t => if (x =? c)%N then k (advance s t) else None
    | [] => None
    end.
Proof.
  intros Hc. simpl. unfold step. destruct (rest s) as [|x t]; [done|].
  by rewrite canonicalize_control.
Qed.

End RegExpFacts.

(** ** The text parser *)

Module TxtFacts.
Import Txt.

Lemma scanLines_app_state (pre lines : list jstring) :
  scanLines (pre ++ lines) = flush (foldl scanLine (foldl scanLine scanStart pre) lines).
Proof. unfold scanLines. by rewrite foldl_app. Qed.

Lemma scanLine_header (st : scan) (h : jstring) :
  isHeader h ->
  scanLine st h = mkScan (flush st) (Some (headerTitle h)) [].
Proof. intros [m Hm]. unfold scanLine, headerTitle. by rewrite Hm. Qed.

Lemma scanLine_body (st : scan) (t line : jstring) :
  sectionMatch line = None -> currentSection st = Some t ->
  scanLine st line = mkScan (emitted st) (Some t) (currentContent st ++ [line]).
Proof. intros Hm Hc. unfold scanLine. by rewrite Hm, Hc. Qed.

Lemma scanLine_preamble (st : scan) (line : jstring) :
  sectionMatch line = None -> currentSection st = None -> scanLine st line = st.
Proof. intros Hm Hc. unfold scanLine. by rewrite Hm, Hc. Qed.

(** A header with nothing under it leaves no trace. *)
Lemma flush_empty (secs : list RfcSection.t) (t : option jstring) :
  flush (mkScan secs t []) = secs.
Proof. unfold flush. simpl. by destruct t. Qed.

Lemma scan_no_header (lines : list jstring) :
  Forall (fun line => sectionMatch line = None) lines ->
  foldl scanLine scanStart lines = scanStart.
Proof.
  induction 1 as [|line lines Hline _ IH]; [done|].
  simpl. by rewrite scanLine_preamble.
Qed.

Lemma emittedFrom_snoc (done : list jstring) (line : jstring) (s : RfcSection.t) :
  emittedFrom false done s -> emittedFrom false (done ++ [line]) s.
Proof.
  intros (pre & h & body & post & -> & Hh & Ht & Hne & Hb & Hc & Hs & Hpost).
  destruct Hpost as [[? _]|(h' & post' & -> & Hh')]; [done|].
  exists pre, h, body, (h' :: post' ++ [line]).
  repeat split; try done.
  - by rewrite <- !app_assoc, <- !app_comm_cons, <- app_assoc.
  - right. by exists h', (post' ++ [line]).
Qed.

Lemma emittedFrom_weaken (lines : list jstring) (s : RfcSection.t) :
  emittedFrom false lines s -> emittedFrom true lines s.
Proof.
  intros (pre & h & body & post & ? & ? & ? & ? & ? & ? & ? & Hpost).
  exists pre, h, body, post. repeat split; try done.
  destruct Hpost as [[? _]|?]; [done|by right].
Qed.

(** The section in progress, if it has lines, closed by [next]: a header or
    nothing. *)
Lemma flush_emitted (done next : list jstring) (st : scan) (last : bool) :
  scanInv done st ->
  ((last = true /\ next = []) \/ exists h', next = [h'] /\ isHeader h') ->
  Forall (emittedFrom false (done ++ next)) (emitted st) ->
  Forall (emittedFrom last (done ++ next)) (flush st).
Proof.
  intros [_ Hcur] Hnext Hold.
  assert (Forall (emittedFrom last (done ++ next)) (emitted st)) as Hold'.
  { destruct last; [|done]. eapply Forall_impl; [exact Hold|].
    apply emittedFrom_weaken. }
  unfold flush. destruct (currentSection st) as [t|]; [|done].
  case_bool_decide as Hlen; [|done].
  apply Forall_app. split; [done|]. constructor; [|done].
  destruct Hcur as (pre & h & -> & Hh & -> & Hbody).
  exists pre, h, (currentContent st), next. simpl.
  repeat split; try done.
  - by rewrite <- !app_assoc, <- !app_comm_cons.
  - intros E. rewrite E in Hlen. simpl in Hlen. lia.
  - destruct Hnext as [?|(h' & -> & Hh')]; [by left|right; by exists h', []].
Qed.

Lemma scanLine_inv (done : list jstring) (st : scan) (line : jstring) :
  scanInv done st -> scanInv (done ++ [line]) (scanLine st line).
Proof.
  intros Hinv.
  assert (Forall (emittedFrom false (done ++ [line])) (emitted st)) as Hold.
  { destruct Hinv as [Hem _]. eapply Forall_impl; [exact Hem|].
    intros s. apply emittedFrom_snoc. }
  destruct (sectionMatch line) as [m|] eqn:Hm.
  - assert (isHeader line) as Hh by (by exists m).
    rewrite scanLine_header by done. split; simpl.
    + apply (flush_emitted done [line] st false); [done| |done].
      right. by exists line.
    + by exists done, line.
  - destruct Hinv as [_ Hcur].
    destruct (currentSection st) as [t|] eqn:Hc.
    + rewrite (scanLine_body _ t) by done. split; simpl; [done|].
      destruct Hcur as (pre & h & -> & Hh & -> & Hbody).
      exists pre, h. repeat split; try done.
      * by rewrite <- app_assoc, <- app_comm_cons.
      * apply Forall_app. split; [done|]. by constructor.
    + rewrite scanLine_preamble by done. split; [done|]. by rewrite Hc.
Qed.

Lemma scan_inv (lines : list jstring) : scanInv lines (foldl scanLine scanStart lines).
Proof.
  induction lines as [|line lines IH] using rev_ind.
  - split; simpl; done.
  - rewrite foldl_app. simpl. by apply scanLine_inv.
Qed.

(** Every section of the text parser comes from a header line followed by
    at least one line of body. *)
Lemma scanLines_emitted (lines : list jstring) :
  Forall (emittedFrom true lines) (scanLines lines).
Proof.
  unfold scanLines.
  pose proof (scan_inv lines) as Hinv.
  pose proof (flush_emitted lines [] _ true Hinv) as Hfl.
  rewrite app_nil_r in Hfl. apply Hfl; [by left|]. by destruct Hinv.
Qed.

(** A header that is followed at once by another header adds nothing. *)
Lemma scanLines_header_header (pre post : list jstring) (h1 h2 : jstring) :
  isHeader h1 -> isHeader h2 ->
  scanLines (pre ++ h1 :: h2 :: post) = scanLines (pre ++ h2 :: post).
Proof.
  intros H1 H2. rewrite !scanLines_app_state. simpl.
  rewrite !scanLine_header by done. by rewrite flush_empty.
Qed.

(** A header that ends the input adds nothing. *)
Lemma scanLines_header_last (pre : list jstring) (h : jstring) :
  isHeader h -> scanLines (pre ++ [h]) = scanLines pre.
Proof.
  intros Hh. rewrite scanLines_app_state. simpl.
  rewrite scanLine_header by done. by rewrite flush_empty.
Qed.

End TxtFacts.

(** ** The expression of the abstract *)

Module AbstractFacts.
Import Txt RegExpFacts.

Local Abbreviation LBr := (Seq (Opt (Chr CR)) (Seq (Chr LF) Eps)).
Local Abbreviation Body := (Seq (Group 1 (Star false Dot)) (Seq blankLine Eps)).
Local Abbreviation Indent := (Seq (Star true Space) Body).
Local Abbreviation Breaks := (Seq (Plus LBr) Indent).
Local Abbreviation Gap := (Seq (Star true Space) Breaks).

(** [\r?\n] has one way to match, that of [lineBreak]. *)
Lemma rmatch_lineBreak (r : regex) (s : mstate) (k : mstate -> option mstate) :
  rmatch flags_is (Seq (Opt (Chr CR)) (Seq (Chr LF) r)) s k
  = match lineBreak (rest s) with
    | Some (n, t) =>
        rmatch flags_is r {| pos := n + pos s; rest := t; caps := caps s |} k
    | None => None
    end.
Proof.
  change (rmatch flags_is (Seq (Opt (Chr CR)) (Seq (Chr LF) r)) s k)
    with (match rmatch flags_is (Chr CR) s
                  (fun s' => rmatch flags_is (Chr LF) s' (fun s'' => rmatch flags_is r s'' k))
          with
          | Some x => Some x
          | None => rmatch flags_is (Chr LF) s (fun s'' => rmatch flags_is r s'' k)
          end).
  rewrite !rmatch_control by done.
  destruct s as [i [|x t] cs]; simpl; [done|].
  destruct (N.eqb_spec x LF) as [->|Hlf]; simpl; [done|].
  destruct (N.eqb_spec x CR) as [->|Hcr]; simpl; [|done].
  unfold step. simpl. destruct t as [|d t']; [done|].
  rewrite canonicalize_control by done.
  destruct (d =? LF)%N; [|done].
  by destruct (rmatch flags_is r _ k).
Qed.

Lemma lineBreak_space (s t : jstring) (n : nat) :
  lineBreak s = Some (n, t) -> breakAfterSpaces s = true.
Proof.
  destruct s as [|c s]; [done|]. simpl.
  destruct (N.eqb_spec c LF) as [->|_]; [done|].
  destruct (N.eqb_spec c CR) as [->|_]; [|done].
  destruct s as [|d s]; [done|]. simpl.
  by destruct (d =? LF)%N.
Qed.

#[local] Arguments rmatch : simpl never.

Lemma rmatch_LBr (s : mstate) (k : mstate -> option mstate) :
  rmatch flags_is LBr s k
  = match lineBreak (rest s) with
    | Some (n, t) => k {| pos := n + pos s; rest := t; caps := caps s |}
    | None => None
    end.
Proof. rewrite rmatch_lineBreak. by destruct (lineBreak (rest s)) as [[n t]|]. Qed.

(** [\s*\r?\n], followed by nothing else, matches exactly where
    [breakAfterSpaces] says, and captures nothing. *)
Lemma greedyRun_break (k : mstate -> option mstate) (t : jstring) :
  (forall s, k s = Some s) ->
  forall (i : nat) (cs : list (nat * jstring)),
    if breakAfterSpaces t
    then exists m, greedyRun isSpace (fun s' => rmatch flags_is LBr s' k) i cs t = Some m
                   /\ caps m = cs
    else greedyRun isSpace (fun s' => rmatch flags_is LBr s' k) i cs t = None.
Proof.
  intros Hk. induction t as [|c t IH]; intros i cs.
  - cbn [greedyRun breakAfterSpaces]. by rewrite rmatch_LBr.
  - cbn [greedyRun breakAfterSpaces]. rewrite rmatch_LBr.
    cbn [rest pos caps]. specialize (IH (S i) cs).
    destruct (N.eqb_spec c LF) as [->|Hc].
    + (* a line feed: the run goes on, or stops here *)
      cbn [orb lineBreak]. change (isSpace LF) with true. cbn iota.
      change (LF =? LF)%N with true. cbn iota.
      destruct (breakAfterSpaces t).
      * destruct IH as (m & -> & Hm). by exists m.
      * rewrite IH, Hk. by eexists.
    + cbn [orb]. destruct (isSpace c) eqn:Hsp; cbn [andb].
      * destruct (breakAfterSpaces t) eqn:Ht.
        -- destruct IH as (m & -> & Hm). by exists m.
        -- rewrite IH. cbn [lineBreak].
           destruct (N.eqb_spec c LF) as [?|_]; [done|].
           destruct (N.eqb_spec c CR) as [->|_]; [|done].
           destruct t as [|d t0]; [done|]. cbn [breakAfterSpaces] in Ht.
           destruct (d =? LF)%N; done.
      * cbn [lineBreak].
        destruct (N.eqb_spec c LF) as [?|_]; [done|].
        destruct (N.eqb_spec c CR) as [->|_]; done.
Qed.

(** The closing alternative of the expressions matches exactly where
    [blankLineAt] says, and captures nothing. *)
Lemma rmatch_blankLine (s : mstate) (k : mstate -> option mstate) :
  (forall s', k s' = Some s') ->
  if blankLineAt (rest s)
  then exists m, rmatch flags_is blankLine s k = Some m /\ caps m = caps s
  else rmatch flags_is blankLine s k = None.
Proof.
  intros Hk. unfold blankLine, blankLineAt, seq. cbn [foldr].
  change (rmatch flags_is (Alt ?a ?b) s k)
    with (match rmatch flags_is a s k with
          | Some x => Some x
          | None => rmatch flags_is b s k
          end).
  rewrite !rmatch_lineBreak.
  destruct (lineBreak (rest s)) as [[n t]|]; [|done].
  rewrite rmatch_LBr. cbn [rest pos caps].
  change (rmatch flags_is (Seq (Star true Space) LBr) ?s1 k)
    with (rmatch flags_is (Star true Space) s1 (fun s' => rmatch flags_is LBr s' k)).
  rewrite rmatch_star_space. cbn [rest pos caps].
  pose proof (greedyRun_break k t Hk (n + pos s) (caps s)) as Hrun.
  destruct (lineBreak t) as [[n' t']|] eqn:Hlb.
  - rewrite (lineBreak_space _ _ _ Hlb). rewrite Hk. by eexists.
  - destruct (breakAfterSpaces t); [|by rewrite Hrun].
    destruct Hrun as (m & -> & Hm). by exists m.
Qed.

Lemma rmatch_Seq (f : flags) (r1 r2 : regex) (s : mstate) (k : mstate -> option mstate) :
  rmatch f (Seq r1 r2) s k = rmatch f r1 s (fun s' => rmatch f r2 s' k).
Proof. done. Qed.

Lemma rmatch_Group (f : flags) (i : nat) (r : regex) (s : mstate)
    (k : mstate -> option mstate) :
  rmatch f (Group i r) s k
  = rmatch f r s
      (fun s' => k {| pos := pos s'; rest := rest s';
                      caps := (i, take (pos s' - pos s) (rest s)) :: caps s' |}).
Proof. done. Qed.










Lemma rmatch_literal_none (w : jstring) :
  forall (s : mstate) (k : mstate -> option mstate),
    startsWithIgnoreCase (rest s) w = false ->
    rmatch flags_is (seq (map Chr w)) s k = None.
Proof.
  induction w as [|p w IH]; intros s k Hno.
  - by destruct (rest s).
  - change (seq (map Chr (p :: w))) with (Seq (Chr p) (seq (map Chr w))).
    rewrite rmatch_Seq.
    change (rmatch flags_is (Chr p) s ?k')
      with (step (fun x => (canonicalize flags_i x =? canonicalize flags_i p)%N) s k').
    unfold step. destruct (rest s) as [|c t]; [done|].
    cbn [startsWithIgnoreCase] in Hno.
    change {| ignoreCase := true; dotAll := false |} with flags_i in Hno.
    destruct (canonicalize flags_i c =? canonicalize flags_i p)%N; [|done].
    by apply IH.
Qed.



(** The search passes the indices at which the word does not start. *)
Lemma search_skip (w : jstring) (r : regex) (pre after : jstring) :
  forall i : nat,
    occursWithin w pre after = false ->
    search flags_is (Seq (seq (map Chr w)) r) i (pre ++ after)
    = search flags_is (Seq (seq (map Chr w)) r) (length pre + i) after.
Proof.
  induction pre as [|c pre IH]; intros i Hno; [done|].
  cbn [occursWithin] in Hno. apply orb_false_iff in Hno as [Hhere Hlater].
  cbn [search app]. rewrite rmatch_Seq, rmatch_literal_none by done.
  rewrite IH by done. by replace (length pre + S i) with (length (c :: pre) + i) by (simpl; lia).
Qed.

(** Without the word there is no match. *)
Lemma exec_abstractRegex_none (text : jstring) :
  occursWithin (js "Abstract") text [] = false ->
  exec flags_is abstractRegex text = None.
Proof.
  intros Hno. unfold exec.
  change abstractRegex with (Seq (seq (map Chr (js "Abstract"))) Gap).
  rewrite <- (app_nil_r text) at 1. rewrite search_skip by done.
  cbn [search]. by rewrite rmatch_Seq, rmatch_literal_none.
Qed.


End AbstractFacts.

Import Txt TxtFacts.

Lemma sections_parseTxtRfc (text rfcNumber url : jstring) :
  sections (parseTxtRfc text rfcNumber url) = scanLines (split LF text).
Proof. done. Qed.

(** C7. A text none of whose lines matches the numbered-heading expression
    gives a document with no section, and in every case [fullText] is the
    input itself. *)
Theorem parseTxtRfc_no_heading (text rfcNumber url : jstring)
    (Hnone : Forall (fun line => sectionMatch line = None) (split LF text)) :
  sections (parseTxtRfc text rfcNumber url) = []
  /\ fullText (parseTxtRfc text rfcNumber url) = text.
Proof.
  split; [|done].
  rewrite sections_parseTxtRfc. unfold scanLines.
  by rewrite scan_no_header.
Qed.

Lemma parseTxtRfc_no_heading_witness :
  let text := js "Hypertext Transfer Protocol\n\nNo numbered heading here." in
  Forall (fun line => sectionMatch line = None) (split LF text)
  /\ sections (parseTxtRfc text (js "2616") (txtUrl (js "2616"))) = []
  /\ fullText (parseTxtRfc text (js "2616") (txtUrl (js "2616"))) = text.
Proof.
  assert (Forall (fun line => sectionMatch line = None)
            (split LF (js "Hypertext Transfer Protocol\n\nNo numbered heading here.")))
    as Hnone by (vm_compute; repeat constructor).
  split; [exact Hnone|].
  exact (parseTxtRfc_no_heading _ (js "2616") (txtUrl (js "2616")) Hnone).
Defined.

(** C5. A numbered header line with no line of body before the next header,
    or before the end of the input, leaves no section: the document is the
    one of the input without that line. Conversely every section that is
    emitted stands for a header followed by at least one line that is not a
    header. So "1. Intro" directly followed by "2. Background" gives no
    section titled "Intro", and "Background" appears once it has a body. *)
Theorem parseTxtRfc_empty_section_dropped
    (pre post : list jstring) (h1 h2 rfcNumber url : jstring)
    (Hh1 : isHeader h1) (Hh2 : isHeader h2)
    (Hlines : Forall (fun l => LF ∉ l) (pre ++ h1 :: h2 :: post)) :
  sections (parseTxtRfc (join LF (pre ++ h1 :: h2 :: post)) rfcNumber url)
  = sections (parseTxtRfc (join LF (pre ++ h2 :: post)) rfcNumber url)
  /\ sections (parseTxtRfc (join LF (pre ++ [h1])) rfcNumber url)
     = sections (parseTxtRfc (join LF pre) rfcNumber url)
  /\ (forall text : jstring,
        Forall (emittedFrom true (split LF text))
          (sections (parseTxtRfc text rfcNumber url)))
  /\ sections (parseTxtRfc (js "1. Intro\n2. Background") rfcNumber url) = []
  /\ sections (parseTxtRfc (js "1. Intro\n2. Background\nSome context.") rfcNumber url)
     = [RfcSection.mk (js "Background") (js "Some context.") None].
Proof.
  apply Forall_app in Hlines as [Hpre Hrest].
  inversion Hrest as [|? ? Hl1 Hrest']; subst.
  split; [|split; [|split; [|split]]].
  - rewrite !sections_parseTxtRfc, !split_join.
    + by apply scanLines_header_header.
    + by destruct pre.
    + apply Forall_app. by split.
    + by destruct pre.
    + apply Forall_app. split; [done|]. by constructor.
  - rewrite !sections_parseTxtRfc, split_join.
    + rewrite scanLines_header_last by done.
      destruct pre; [done|]. by rewrite split_join.
    + by destruct pre.
    + apply Forall_app. split; [done|]. by repeat constructor.
  - intros text. rewrite sections_parseTxtRfc. apply scanLines_emitted.
  - by vm_compute.
  - by vm_compute.
Qed.

Lemma parseTxtRfc_empty_section_dropped_witness :
  let pre := [js "Network Working Group"] in
  let post := [js "   Some context."] in
  let h1 := js "1. Intro" in
  let h2 := js "2. Background" in
  isHeader h1 /\ isHeader h2
  /\ Forall (fun l => LF ∉ l) (pre ++ h1 :: h2 :: post)
  /\ sections (parseTxtRfc (join LF (pre ++ h1 :: h2 :: post)) (js "2616") [])
     = sections (parseTxtRfc (join LF (pre ++ h2 :: post)) (js "2616") []).
Proof.
  assert (isHeader (js "1. Intro")) as Hh1 by (vm_compute; eauto).
  assert (isHeader (js "2. Background")) as Hh2 by (vm_compute; eauto).
  assert (Forall (fun l => LF ∉ l)
            ([js "Network Working Group"]
             ++ js "1. Intro" :: js "2. Background" :: [js "   Some context."]))
    as Hlines
    by (repeat constructor; apply (bool_decide_unpack _); by vm_compute).
  split; [exact Hh1|]. split; [exact Hh2|]. split; [exact Hlines|].
  exact (proj1 (parseTxtRfc_empty_section_dropped
                  [js "Network Working Group"] [js "   Some context."]
                  (js "1. Intro") (js "2. Background") (js "2616") [] Hh1 Hh2 Hlines)).
Defined.

(** C3, on the text parser. A header line whose text after the number is
    only white space is matched by the expression (its [(.+)] takes the last
    blank), and the title, trimmed, is the empty string; the section is
    emitted all the same as soon as a line follows. *)
Theorem parseTxtRfc_blank_title (rfcNumber url : jstring) :
  isHeader (js "1.  ")
  /\ sections (parseTxtRfc (js "1.  \nbody") rfcNumber url)
     = [RfcSection.mk [] (js "body") None].
Proof. split; [vm_compute; eauto|]. rewrite sections_parseTxtRfc. by vm_compute. Qed.




(** ** The markup tree *)

Module DomFacts.

(** Induction over a tree, with the property known of every child. *)
Lemma node_ind (P : node -> Prop) :
  (forall d, P (Text d)) ->
  (forall d, P (Comment d)) ->
  (forall tag classes children,
      Forall P children -> P (Element tag classes children)) ->
  forall n, P n.
Proof.
  intros Htext Hcomment Helement.
  fix IH 1. intros [d|d|tag classes children].
  - apply Htext.
  - apply Hcomment.
  - apply Helement. induction children as [|c children IHc]; constructor.
    + apply IH.
    + apply IHc.
Qed.

Lemma filter_flat_map {A B} (p : B -> bool) (f g : A -> list B) (l : list A) :
  Forall (fun x => f x = List.filter p (g x)) l ->
  flat_map f l = List.filter p (flat_map g l).
Proof.
  induction 1 as [|x l Hx _ IH]; [done|].
  simpl. by rewrite List.filter_app, Hx, IH.
Qed.

(** [querySelectorAll] keeps, in document order, the elements that match. *)
Lemma collect_filter (sels : list selector) (n : node) (ancestors : list label) :
  collect sels ancestors n
  = List.filter (matchesLocated sels) (descendantsOrSelf ancestors n).
Proof.
  revert ancestors. induction n as [d|d|tag classes children IH] using node_ind;
    intros ancestors; [done|done|].
  simpl. unfold matchesLocated at 1. simpl.
  rewrite (filter_flat_map (matchesLocated sels) _
             (descendantsOrSelf ((tag, classes) :: ancestors))).
  - by destruct (matchesAny sels ancestors (tag, classes)).
  - eapply Forall_impl; [exact IH|]. intros c Hc. apply Hc.
Qed.

Lemma elQuerySelectorAll_filter (sels : list selector) (el : located) :
  elQuerySelectorAll sels el = List.filter (matchesLocated sels) (descendants el).
Proof.
  unfold elQuerySelectorAll, descendants. destruct el as [anc [d|d|tag classes children]];
    simpl; [done|done|].
  apply filter_flat_map, Forall_forall. intros c _. apply collect_filter.
Qed.

(** [el.querySelector(sels)] is the first element below [el], in document
    order, that matches one of the selectors of the list. *)
Lemma elQuerySelector_first (sels : list selector) (el : located) :
  elQuerySelector sels el = head (List.filter (matchesLocated sels) (descendants el)).
Proof. unfold elQuerySelector. by rewrite elQuerySelectorAll_filter. Qed.

(** A loop that pushes [g x] when [c x] holds builds a filtered map. *)
Lemma foldl_push {A B} (c : A -> bool) (g : A -> B) (l : list A) (acc : list B) :
  foldl (fun acc x => if c x then acc ++ [g x] else acc) acc l
  = acc ++ map g (List.filter c l).
Proof.
  revert acc. induction l as [|x l IH]; intros acc; simpl.
  - by rewrite app_nil_r.
  - rewrite IH. destruct (c x); [|done]. by rewrite <- app_assoc.
Qed.

(** [trim] leaves something exactly when the string has a character that
    is not white space. *)
Lemma trimStart_nil (s : jstring) :
  trimStart s = [] <-> Forall (fun c => isSpace c = true) s.
Proof.
  induction s as [|c s IH]; simpl; [done|].
  destruct (isSpace c) eqn:E.
  - rewrite IH. split; [by constructor|by inversion 1].
  - split; [done|]. inversion 1; congruence.
Qed.

Lemma trimStart_suffix (s : jstring) : exists pre, s = pre ++ trimStart s
  /\ Forall (fun c => isSpace c = true) pre.
Proof.
  induction s as [|c s (pre & IH & Hpre)]; simpl; [by exists []|].
  destruct (isSpace c) eqn:E; [|by exists []].
  exists (c :: pre). split; [by rewrite <- app_comm_cons, <- IH|by constructor].
Qed.

Lemma trim_nil (s : jstring) :
  trim s = [] <-> Forall (fun c => isSpace c = true) s.
Proof.
  unfold trim, trimEnd. split.
  - intros H. apply (f_equal (@rev _)) in H. rewrite rev_involutive in H. simpl in H.
    apply trimStart_nil in H. apply Forall_rev in H. rewrite rev_involutive in H.
    destruct (trimStart_suffix s) as (pre & E & Hpre).
    rewrite E. apply Forall_app. by split.
  - intros H. apply trimStart_nil in H. by rewrite H.
Qed.

Lemma trim_truthy (s : jstring) :
  truthy (trim s) = true <-> Exists (fun c => isSpace c = false) s.
Proof.
  rewrite truthy_nonempty, trim_nil. split.
  - intros H. apply not_Forall_Exists in H; [|apply _].
    eapply Exists_impl; [exact H|]. intros c. simpl. by destruct (isSpace c).
  - intros H Hall. apply Exists_exists in H as (c & Hin & Hc).
    rewrite Forall_forall in Hall. specialize (Hall c Hin). congruence.
Qed.

End DomFacts.

(** ** The HTML parser *)

Section HtmlFacts.

Variable JSDOM : jstring -> outcome document.
Variable innerHTML : node -> jstring.

Import DomFacts.

Lemma subsectionsOf_map (sectionEl : located) :
  subsectionsOf innerHTML sectionEl
  = map (subsectionOf innerHTML)
      (List.filter (fun e => truthy (firstHeading [tag "h3"; tag "h4"; tag "h5"] e))
         (elQuerySelectorAll [tag "section"] sectionEl)).
Proof.
  unfold subsectionsOf, subsectionOf, firstHeading.
  rewrite (foldl_push
             (fun e => truthy (trimmedText (elQuerySelector [tag "h3"; tag "h4"; tag "h5"] e)))
             (fun e => Subsection.mk
                         (trimmedText (elQuerySelector [tag "h3"; tag "h4"; tag "h5"] e))
                         (innerHTML e.2))).
  erewrite List.filter_ext; [apply List.map_ext|];
    intros e; simpl; by rewrite elQuerySelector_first.
Qed.

Lemma sectionsOf_map (doc : document) :
  sectionsOf innerHTML doc
  = map (sectionOf innerHTML)
      (List.filter (fun e => truthy (firstHeading [tag "h2"; tag "h3"; tag "h4"] e))
         (querySelectorAll [tag "section"] doc)).
Proof.
  unfold sectionsOf, sectionOf, firstHeading.
  rewrite (foldl_push
             (fun e => truthy (trimmedText (elQuerySelector [tag "h2"; tag "h3"; tag "h4"] e)))
             (fun e => RfcSection.mk
                         (trimmedText (elQuerySelector [tag "h2"; tag "h3"; tag "h4"] e))
                         (innerHTML e.2)
                         (if bool_decide (0 < length (subsectionsOf innerHTML e))
                          then Some (subsectionsOf innerHTML e) else None))).
  erewrite List.filter_ext; [apply List.map_ext|];
    intros e; simpl; by rewrite elQuerySelector_first.
Qed.

(** The HTML parser never emits a section or a subsection with an empty
    title. *)
Lemma parseDocument_titles_nonempty (doc : document) (rfcNumber url : jstring) :
  Forall (fun s =>
            RfcSection.title s ≠ []
            /\ forall subs, RfcSection.subsections s = Some subs ->
                            Forall (fun sub => Subsection.title sub ≠ []) subs)
         (sections (parseDocument innerHTML doc rfcNumber url)).
Proof.
  simpl. rewrite sectionsOf_map. apply Forall_forall. intros s Hs.
  apply list_elem_of_In, in_map_iff in Hs as (e & <- & He).
  apply filter_In in He as [_ He]. split.
  - by apply truthy_nonempty.
  - simpl. intros subs Hsubs. case_bool_decide; [|done]. simplify_eq.
    rewrite subsectionsOf_map. apply Forall_forall. intros sub Hsub.
    apply list_elem_of_In, in_map_iff in Hsub as (e' & <- & He').
    apply filter_In in He' as [_ He']. by apply truthy_nonempty.
Qed.

End HtmlFacts.

Import Examples.

(** C4, as stated, fails: in a section whose h3 comes before an h2, the
    title is the text of the h3. *)
Lemma section_title_rank_counterexample :
  parseHtmlRfc exampleJSDOM serializeChildren rankMarkup (js "7230") (htmlUrl (js "7230"))
  = Return (parseDocument serializeChildren rankDocument (js "7230") (htmlUrl (js "7230")))
  /\ map RfcSection.title
       (sections (parseDocument serializeChildren rankDocument (js "7230")
                    (htmlUrl (js "7230"))))
     = [js "Details"]
  /\ map RfcSection.title
       (sections (parseDocument serializeChildren rankDocument (js "7230")
                    (htmlUrl (js "7230"))))
     ≠ [js "Overview"].
Proof. repeat split; by vm_compute. Qed.

Section HtmlTheorems.

Variable JSDOM : jstring -> outcome document.
Variable innerHTML : node -> jstring.

Import DomFacts.

(** C4, amended. The title of a section is the trimmed text of the first
    element below it, in document order, that is an h2, an h3 or an h4
    (an h3, an h4 or an h5 for a subsection), whatever the ranks: the
    sections are those of the section elements for which that text is not
    empty. So when nothing before an h3 of the section is such a heading,
    the title is the text of that h3, also when an h2 follows. *)
Theorem section_title_document_order
    (doc : document) (rfcNumber url : jstring)
    (ancestors : list label) (classes h3classes : list jstring)
    (before h3children after : list node)
    (Hbefore : flat_map (collect [tag "h2"; tag "h3"; tag "h4"]
                           ((js "section", classes) :: ancestors)) before = []) :
  sections (parseDocument innerHTML doc rfcNumber url)
  = map (sectionOf innerHTML)
      (List.filter (fun e => truthy (firstHeading [tag "h2"; tag "h3"; tag "h4"] e))
         (querySelectorAll [tag "section"] doc))
  /\ (forall sectionEl : located,
        subsectionsOf innerHTML sectionEl
        = map (subsectionOf innerHTML)
            (List.filter (fun e => truthy (firstHeading [tag "h3"; tag "h4"; tag "h5"] e))
               (elQuerySelectorAll [tag "section"] sectionEl)))
  /\ RfcSection.title
       (sectionOf innerHTML
          (ancestors,
           Element (js "section") classes
             (before ++ Element (js "h3") h3classes h3children :: after)))
     = trim (textContent (Element (js "h3") h3classes h3children)).
Proof.
  split; [apply sectionsOf_map|]. split; [apply subsectionsOf_map|].
  unfold sectionOf, firstHeading. simpl RfcSection.title.
  rewrite <- elQuerySelector_first.
  unfold elQuerySelector, elQuerySelectorAll. simpl.
  rewrite flat_map_app, Hbefore. done.
Qed.

(** C8, amended. The text parser returns the input as [fullText], so a
    non-empty input gives a non-empty [fullText]. The HTML parser returns
    the trimmed text of the body element: it is non-empty exactly when the
    tree has a body whose text holds a character that is not white space.
    Neither looks at the sections. *)
Theorem fullText_populated
    (text html rfcNumber url : jstring) (doc : document)
    (Htree : JSDOM html = Return doc) :
  fullText (parseTxtRfc text rfcNumber url) = text
  /\ (text ≠ [] -> fullText (parseTxtRfc text rfcNumber url) ≠ [])
  /\ parseHtmlRfc JSDOM innerHTML html rfcNumber url
     = Return (parseDocument innerHTML doc rfcNumber url)
  /\ fullText (parseDocument innerHTML doc rfcNumber url)
     = trimmedText (querySelector [tag "body"] doc)
  /\ (fullText (parseDocument innerHTML doc rfcNumber url) ≠ []
      <-> exists body, querySelector [tag "body"] doc = Some body
                       /\ Exists (fun c => isSpace c = false) (textContent body.2)).
Proof.
  split; [done|]. split; [done|]. split; [unfold parseHtmlRfc; by rewrite Htree|].
  split; [done|]. simpl.
  destruct (querySelector [tag "body"] doc) as [body|]; simpl.
  - rewrite <- truthy_nonempty, trim_truthy. split; [by exists body|].
    by intros (? & [= <-] & ?).
  - split; [done|]. by intros (? & ? & _).
Qed.


End HtmlTheorems.

Lemma section_title_document_order_witness :
  let before := [el "p" [txt "Lead."]] in
  let after := [el "h2" [txt "Overview"]] in
  flat_map (collect [tag "h2"; tag "h3"; tag "h4"] [(js "section", [])]) before = []
  /\ RfcSection.title
       (sectionOf serializeChildren
          ([], Element (js "section") []
                 (before ++ Element (js "h3") [] [txt " Details "] :: after)))
     = js "Details".
Proof.
  split; [by vm_compute|].
  refine (eq_trans
            (proj2 (proj2 (section_title_document_order serializeChildren
                             [] (js "7230") [] [] [] []
                             [el "p" [txt "Lead."]] [txt " Details "]
                             [el "h2" [txt "Overview"]] _))) _);
    by vm_compute.
Defined.

(** C8, as stated, fails on the HTML parser: markup without text gives an
    empty [fullText]. *)
Lemma fullText_empty_counterexample :
  emptyMarkup ≠ []
  /\ parseHtmlRfc exampleJSDOM serializeChildren emptyMarkup (js "7230") (htmlUrl (js "7230"))
     = Return (parseDocument serializeChildren emptyDocument (js "7230") (htmlUrl (js "7230")))
  /\ fullText (parseDocument serializeChildren emptyDocument (js "7230") (htmlUrl (js "7230")))
     = [].
Proof. split; [done|]. split; by vm_compute. Qed.

Lemma fullText_populated_witness :
  exampleJSDOM rankMarkup = Return rankDocument
  /\ fullText (parseDocument serializeChildren rankDocument (js "7230") (htmlUrl (js "7230")))
     = trimmedText (querySelector [tag "body"] rankDocument).
Proof.
  assert (exampleJSDOM rankMarkup = Return rankDocument) as Htree by (by vm_compute).
  split; [exact Htree|].
  exact (proj1 (proj2 (proj2 (proj2
           (fullText_populated exampleJSDOM serializeChildren
              rfc2616Text rankMarkup (js "7230") (htmlUrl (js "7230")) rankDocument Htree))))).
Defined.

(** ** The service *)

Lemma txtUrl_htmlUrl (rfcNumber : jstring) : txtUrl rfcNumber ≠ htmlUrl rfcNumber.
Proof.
  unfold txtUrl, htmlUrl. intros E.
  do 3 apply app_inv_head in E. discriminate E.
Qed.

Section ServiceFacts.

Variable respond : list jstring -> jstring -> outcome jstring.
Variable JSDOM : jstring -> outcome document.
Variable innerHTML : node -> jstring.

(** A call for a number that is in the cache returns the cached document
    and touches nothing. *)
Lemma fetchRfc_hit (rfcNumber : jstring) (st : state) (rfc : RfcContent) :
  cache st !! rfcNumber = Some rfc -> fetchRfc respond JSDOM innerHTML rfcNumber st = (Return rfc, st).
Proof.
  intros Hhit. unfold fetchRfc, bind, cache_get. simpl. by rewrite Hhit.
Qed.

(** A call for a number that is not in the cache: the HTML variant, then
    the text variant if the first attempt threw, then the composite error
    if the second request threw too. *)
Lemma fetchRfc_miss (rfcNumber : jstring) (st : state) :
  cache st !! rfcNumber = None ->
  fetchRfc respond JSDOM innerHTML rfcNumber st
  = match htmlAttempt respond JSDOM innerHTML rfcNumber st with
    | Return rfc =>
        (Return rfc,
         mkState (<[rfcNumber := rfc]> (cache st))
           (requests st ++ [htmlUrl rfcNumber]) (console st)
           (parsed st ++ htmlParsed respond rfcNumber st))
    | Throw _ =>
        match txtResponse respond rfcNumber st with
        | Return text =>
            let rfc := parseTxtRfc text rfcNumber (txtUrl rfcNumber) in
            (Return rfc,
             mkState (<[rfcNumber := rfc]> (cache st))
               (requests st ++ [htmlUrl rfcNumber; txtUrl rfcNumber])
               (console st ++ [fallbackNotice rfcNumber])
               (parsed st ++ htmlParsed respond rfcNumber st ++ [text]))
        | Throw cause =>
            (Throw (compositeError rfcNumber cause),
             mkState (cache st)
               (requests st ++ [htmlUrl rfcNumber; txtUrl rfcNumber])
               (console st ++ [fallbackNotice rfcNumber])
               (parsed st ++ htmlParsed respond rfcNumber st))
        end
    end.
Proof.
  intros Hmiss.
  unfold fetchRfc, htmlAttempt, htmlParsed, txtResponse,
    bind, try_catch, cache_get, cache_set, console_error, axios_get, parsing, ret, throw.
  simpl. rewrite Hmiss.
  destruct (respond (requests st) (htmlUrl rfcNumber)) as [html|e]; simpl.
  - destruct (parseHtmlRfc JSDOM innerHTML html rfcNumber (htmlUrl rfcNumber));
      simpl; [done|].
    destruct (respond (requests st ++ [htmlUrl rfcNumber]) (txtUrl rfcNumber));
      simpl; by rewrite <- ?app_assoc.
  - destruct (respond (requests st ++ [htmlUrl rfcNumber]) (txtUrl rfcNumber));
      simpl; by rewrite <- ?app_assoc, ?app_nil_r.
Qed.


(** What a call does to the cache: nothing, or one new entry, under the
    number asked for and only on a miss. *)
Lemma fetchRfc_cache (rfcNumber : jstring) (st : state) :
  match fetchRfc respond JSDOM innerHTML rfcNumber st with
  | (Return rfc, st') =>
      cache st' !! rfcNumber = Some rfc
      /\ (cache st' = cache st \/
          cache st !! rfcNumber = None /\ cache st' = <[rfcNumber := rfc]> (cache st))
  | (Throw _, st') => cache st' = cache st /\ cache st !! rfcNumber = None
  end.
Proof.
  destruct (cache st !! rfcNumber) as [rfc|] eqn:Hc.
  - rewrite (fetchRfc_hit _ _ rfc) by done. split; [done|by left].
  - rewrite fetchRfc_miss by done.
    destruct (htmlAttempt respond JSDOM innerHTML rfcNumber st).
    + simpl. rewrite lookup_insert_eq. split; [done|by right].
    + destruct (txtResponse respond rfcNumber st); simpl; [|done].
      rewrite lookup_insert_eq. split; [done|by right].
Qed.

(** An entry of the cache is never replaced nor removed. *)
Lemma fetchRfc_keeps (rfcNumber other : jstring) (st : state) (rfc : RfcContent) :
  cache st !! rfcNumber = Some rfc ->
  cache (fetchRfc respond JSDOM innerHTML other st).2 !! rfcNumber = Some rfc.
Proof.
  intros Hin. pose proof (fetchRfc_cache other st) as Hc.
  destruct (fetchRfc respond JSDOM innerHTML other st) as [[rfc'|e] st']; simpl.
  - destruct Hc as [_ [->|[Hmiss ->]]]; [done|].
    rewrite lookup_insert_ne; [done|]. intros ->. congruence.
  - destruct Hc as [-> _]. done.
Qed.

Lemma fetchAll_keeps (rfcNumber : jstring) (others : list jstring) (st : state)
    (rfc : RfcContent) :
  cache st !! rfcNumber = Some rfc ->
  cache (fetchAll respond JSDOM innerHTML others st) !! rfcNumber = Some rfc.
Proof.
  revert st. induction others as [|other others IH]; intros st Hin; [done|].
  simpl. apply IH. by apply fetchRfc_keeps.
Qed.

End ServiceFacts.

Section ServiceTheorems.

Variable respond : list jstring -> jstring -> outcome jstring.
Variable JSDOM : jstring -> outcome document.
Variable innerHTML : node -> jstring.




End ServiceTheorems.




(** * Further properties *)

(** ** Strings *)

Module StringFacts.

Lemma split_nonempty (s : jstring) : split LF s ≠ [].
Proof.
  destruct s as [|c t]; [done|]. simpl.
  destruct (c =? LF)%N; [done|]. by destruct (split LF t).
Qed.

(** Joining the lines of a text gives the text back. *)
Lemma join_split (s : jstring) : join LF (split LF s) = s.
Proof.
  induction s as [|c t IH]; [done|]. simpl.
  destruct (N.eqb_spec c LF) as [->|Hc].
  - pose proof (split_nonempty t) as Hne.
    destruct (split LF t) as [|p ps] eqn:E; [done|].
    change (join LF ([] :: p :: ps)) with (LF :: join LF (p :: ps)). by rewrite IH.
  - destruct (split LF t) as [|p ps] eqn:E; [by destruct (split_nonempty t)|].
    rewrite <- IH. by destruct ps.
Qed.

(** No line holds a line feed. *)
Lemma split_no_LF (s : jstring) : Forall (fun l => LF ∉ l) (split LF s).
Proof.
  induction s as [|c t IH]; simpl.
  - constructor; [|done]. apply not_elem_of_nil.
  - destruct (N.eqb_spec c LF) as [->|Hc].
    + constructor; [|done]. apply not_elem_of_nil.
    + destruct (split LF t) as [|p ps].
      * constructor; [|done]. intros Hin.
        apply elem_of_cons in Hin as [?|Hin]; [done|]. by apply not_elem_of_nil in Hin.
      * inversion IH; subst. constructor; [|done].
        intros Hin. apply elem_of_cons in Hin as [?|?]; done.
Qed.

Lemma join_app (l1 l2 : list jstring) :
  l1 ≠ [] -> l2 ≠ [] -> join LF (l1 ++ l2) = join LF l1 ++ LF :: join LF l2.
Proof.
  intros H1 H2. induction l1 as [|p [|q l1] IH]; [done| |].
  - destruct l2; [done|]. done.
  - change (join LF ((p :: q :: l1) ++ l2)) with (p ++ LF :: join LF ((q :: l1) ++ l2)).
    rewrite IH by done.
    change (join LF (p :: q :: l1)) with (p ++ LF :: join LF (q :: l1)).
    by rewrite <- !app_assoc.
Qed.

Lemma head_rev (s : jstring) : head (rev s) = last s.
Proof. rewrite rev_alt. apply head_reverse. Qed.

Lemma last_rev (s : jstring) : last (rev s) = head s.
Proof. rewrite rev_alt. apply last_reverse. Qed.

Lemma elem_of_rev (s : jstring) (c : char) : c ∈ rev s <-> c ∈ s.
Proof. rewrite rev_alt. apply elem_of_reverse. Qed.

Lemma trimStart_fixed (s : jstring) :
  isSpace <$> head s ≠ Some true -> trimStart s = s.
Proof. destruct s as [|c s]; [done|]. simpl. by destruct (isSpace c). Qed.

Lemma trimStart_clean (s : jstring) : isSpace <$> head (trimStart s) ≠ Some true.
Proof.
  induction s as [|c s IH]; [done|]. simpl.
  destruct (isSpace c) eqn:E; [done|]. simpl. by rewrite E.
Qed.

Lemma trimStart_last (s : jstring) :
  trimStart s ≠ [] -> last (trimStart s) = last s.
Proof.
  induction s as [|c s IH]; [done|]. simpl.
  destruct (isSpace c); [|done]. intros Hne. rewrite IH by done.
  destruct s; [done|]. done.
Qed.

(** What [trim] leaves neither starts nor ends with white space. *)
Lemma trim_noOuterSpace (s : jstring) : noOuterSpace (trim s).
Proof.
  unfold noOuterSpace, trim, trimEnd.
  set (u := trimStart s). set (v := trimStart (rev u)).
  assert (isSpace <$> head v ≠ Some true) as Hv by apply trimStart_clean.
  split.
  - destruct v as [|c v'] eqn:Ev; [done|].
    rewrite head_rev. rewrite <- Ev. unfold v.
    rewrite trimStart_last by (fold v; by rewrite Ev).
    rewrite last_rev. apply trimStart_clean.
  - by rewrite last_rev.
Qed.

Lemma trim_fixed (s : jstring) : noOuterSpace s -> trim s = s.
Proof.
  intros [Hh Hl]. unfold trim, trimEnd.
  rewrite (trimStart_fixed s) by done.
  rewrite trimStart_fixed; [apply rev_involutive|]. by rewrite head_rev.
Qed.

(** [trim] is idempotent. *)
Lemma trim_trim (s : jstring) : trim (trim s) = trim s.
Proof. apply trim_fixed, trim_noOuterSpace. Qed.

Lemma trimStart_elem (s : jstring) (c : char) : c ∈ trimStart s -> c ∈ s.
Proof.
  induction s as [|d s IH]; [done|]. simpl.
  destruct (isSpace d); [|done]. intros H. right. by apply IH.
Qed.

Lemma trim_elem (s : jstring) (c : char) : c ∈ trim s -> c ∈ s.
Proof.
  unfold trim, trimEnd. intros H.
  rewrite elem_of_rev in H. apply trimStart_elem in H.
  rewrite elem_of_rev in H. by apply trimStart_elem.
Qed.

End StringFacts.

(** ** The sections and the authors of the text parser *)

Module TxtMore.
Import Txt TxtFacts StringFacts.

(** The titles in progress: those of the sections emitted and that of the
    section being read. *)
Lemma flush_titles (st : scan) :
  map RfcSection.title (flush st)
  `sublist_of` map RfcSection.title (emitted st) ++ option_list (currentSection st).
Proof.
  unfold flush. destruct (currentSection st) as [t|]; simpl.
  - case_bool_decide.
    + by rewrite map_app.
    + by apply sublist_inserts_r.
  - by rewrite app_nil_r.
Qed.

Lemma scan_titles (lines : list jstring) :
  forall st : scan,
    map RfcSection.title (emitted (foldl scanLine st lines))
    ++ option_list (currentSection (foldl scanLine st lines))
    `sublist_of`
    (map RfcSection.title (emitted st) ++ option_list (currentSection st))
    ++ omap headerTitleOf lines.
Proof.
  induction lines as [|line lines IH]; intros st; simpl.
  - by rewrite app_nil_r.
  - etrans; [apply IH|]. unfold headerTitleOf, scanLine.
    destruct (sectionMatch line) as [m|] eqn:Hm; simpl.
    + rewrite <- (app_assoc _ [_] _). simpl.
      apply sublist_app; [apply flush_titles|done].
    + destruct (currentSection st) eqn:Hc; simpl; by rewrite ?Hc.
Qed.

Lemma extractAuthors_map (text : jstring) :
  extractAuthors text
  = match capture1 (exec flags_is authorRegex text) with
    | Some g => map trim (List.filter authorLine (split LF g))
    | None => []
    end.
Proof.
  unfold extractAuthors. destruct (capture1 _) as [g|]; [|done].
  apply (DomFacts.foldl_push authorLine trim).
Qed.

End TxtMore.

Import StringFacts TxtMore.

(** X1. The content of a section of the text parser is a part of the input,
    as it stands there: the text is some [before], the header line, a line
    feed, the content, and some [after]; [before] is empty or ends a line,
    [after] is empty or begins with a line feed. *)
Theorem section_content_verbatim
    (text rfcNumber url : jstring) (s : RfcSection.t)
    (Hs : s ∈ sections (parseTxtRfc text rfcNumber url)) :
  exists before h after,
    text = before ++ h ++ LF :: RfcSection.content s ++ after
    /\ isHeader h
    /\ RfcSection.title s = headerTitle h
    /\ (before = [] \/ last before = Some LF)
    /\ (after = [] \/ head after = Some LF)
    /\ RfcSection.subsections s = None.
Proof.
  rewrite sections_parseTxtRfc in Hs.
  pose proof (scanLines_emitted (split LF text)) as Hall.
  rewrite Forall_forall in Hall. apply Hall in Hs.
  destruct Hs as (pre & h & body & post & Hlines & Hh & Ht & Hne & _ & Hc & Hsub & _).
  assert (text = join LF (pre ++ h :: body ++ post)) as Htext
    by (rewrite <- Hlines; symmetry; apply join_split).
  assert (join LF (h :: body ++ post)
          = h ++ LF :: RfcSection.content s
              ++ match post with [] => [] | _ :: _ => LF :: join LF post end) as Hmid.
  { rewrite Hc. destruct body as [|b body]; [done|].
    change (join LF (h :: (b :: body) ++ post))
      with (h ++ LF :: join LF ((b :: body) ++ post)).
    destruct post as [|p post]; [by rewrite !app_nil_r|].
    by rewrite join_app. }
  destruct pre as [|p pre].
  - exists [], h, (match post with [] => [] | _ :: _ => LF :: join LF post end).
    rewrite Htext. simpl app at 1. rewrite Hmid.
    repeat split; try done; [by left|by destruct post; [left|right]].
  - exists (join LF (p :: pre) ++ [LF]), h,
      (match post with [] => [] | _ :: _ => LF :: join LF post end).
    rewrite Htext, join_app, Hmid by done.
    repeat split; try done.
    + by rewrite <- !app_assoc.
    + right. by rewrite last_snoc.
    + by destruct post; [left|right].
Qed.

Lemma section_content_verbatim_witness :
  RfcSection.mk (js "Intro") (js "  Some text.\n") None
  ∈ sections (parseTxtRfc (js "Preface\n1. Intro\n  Some text.\n\n2. Next\nx") (js "1") [])
  /\ exists before h after,
       js "Preface\n1. Intro\n  Some text.\n\n2. Next\nx"
       = before ++ h ++ LF :: js "  Some text.\n" ++ after
       /\ isHeader h.
Proof.
  assert (RfcSection.mk (js "Intro") (js "  Some text.\n") None
          ∈ sections (parseTxtRfc (js "Preface\n1. Intro\n  Some text.\n\n2. Next\nx")
                        (js "1") [])) as Hs
    by (vm_compute; apply list_elem_of_here).
  split; [exact Hs|].
  destruct (section_content_verbatim _ _ _ _ Hs)
    as (before & h & after & Htext & Hh & _).
  by exists before, h, after.
Defined.

(** X2. The titles of the sections of the text parser follow the order of
    the header lines of the input: they are the titles of some of these
    lines, in the same order, so there are no more sections than header
    lines. *)
Theorem section_titles_in_order (text rfcNumber url : jstring) :
  map RfcSection.title (sections (parseTxtRfc text rfcNumber url))
  `sublist_of` omap headerTitleOf (split LF text)
  /\ length (sections (parseTxtRfc text rfcNumber url))
     <= length (omap headerTitleOf (split LF text)).
Proof.
  assert (map RfcSection.title (sections (parseTxtRfc text rfcNumber url))
          `sublist_of` omap headerTitleOf (split LF text)) as Hsub.
  { rewrite sections_parseTxtRfc. unfold scanLines.
    etrans; [apply flush_titles|]. apply (scan_titles _ scanStart). }
  split; [done|]. apply sublist_length in Hsub. by rewrite length_map in Hsub.
Qed.

(** X3. Every author the text parser returns is a line of the author block,
    trimmed: it is not empty, neither starts nor ends with white space,
    holds no line feed and does not start with "Authors:". *)
Theorem text_authors_clean (text rfcNumber url : jstring) :
  Forall (fun a => a ≠ [] /\ noOuterSpace a /\ (LF ∉ a)
                   /\ startsWith a (js "Authors:") = false)
         (RfcMetadata.authors (metadata (parseTxtRfc text rfcNumber url))).
Proof.
  cbn [metadata parseTxtRfc RfcMetadata.authors]. rewrite extractAuthors_map.
  destruct (capture1 _) as [g|]; [|done].
  apply Forall_forall. intros a Ha.
  apply list_elem_of_In, in_map_iff in Ha as (line & <- & Hline).
  apply filter_In in Hline as [Hin Hok].
  unfold authorLine in Hok. apply andb_true_iff in Hok as [Hne Hst].
  split; [by apply truthy_nonempty|]. split; [apply trim_noOuterSpace|].
  split; [|by apply negb_true_iff].
  intros HLF. apply trim_elem in HLF.
  pose proof (split_no_LF g) as Hall. rewrite Forall_forall in Hall.
  by apply (Hall line); [apply list_elem_of_In|].
Qed.

(** ** The expressions of the labelled fields *)

Module LabelFacts.
Import Txt RegExpFacts AbstractFacts.

(** An expression without letter and without dot matches the same way
    whatever the flags. *)
Lemma starLoop_flags (g : bool)
    (iter1 iter2 : mstate -> (mstate -> option mstate) -> option mstate) :
  (forall s k1 k2, (forall s', extends s s' -> k1 s' = k2 s') -> iter1 s k1 = iter2 s k2) ->
  forall (n : nat) (s : mstate) (k1 k2 : mstate -> option mstate),
    (forall s', extends s s' -> k1 s' = k2 s') ->
    starLoop g iter1 k1 n s = starLoop g iter2 k2 n s.
Proof.
  intros Hiter. induction n as [|n IH]; intros s k1 k2 Hk.
  - simpl. apply Hk. split; lia.
  - assert (k1 s = k2 s) as Hs by (apply Hk; split; lia).
    assert (iter1 s (fun s' => if decide (pos s < pos s')
                               then starLoop g iter1 k1 n s' else None)
            = iter2 s (fun s' => if decide (pos s < pos s')
                                 then starLoop g iter2 k2 n s' else None)) as Hone.
    { apply Hiter. intros s' Hs'. destruct (decide (pos s < pos s')); [|done].
      apply IH. intros s'' Hs''. apply Hk.
      destruct Hs' as [? ?], Hs'' as [? ?]. split; lia. }
    cbn [starLoop]. rewrite Hone, Hs. done.
Qed.

Lemma rmatch_flagFree (f f' : flags) (r : regex) :
  flagFree r = true ->
  forall (s : mstate) (k1 k2 : mstate -> option mstate),
    (forall s', extends s s' -> k1 s' = k2 s') ->
    rmatch f r s k1 = rmatch f' r s k2.
Proof.
  assert (forall p s k1 k2,
             (forall s', extends s s' -> k1 s' = k2 s') -> step p s k1 = step p s k2)
    as Hstep.
  { intros p s k1 k2 Hk. unfold step. destruct (rest s) as [|c t] eqn:Hr; [done|].
    destruct (p c); [|done]. apply Hk. unfold extends, advance. simpl.
    rewrite Hr. simpl. lia. }
  induction r as [|c| | | | | |r1 IH1 r2 IH2|r1 IH1 r2 IH2|g r1 IH1|r1 IH1|i r1 IH1];
    intros Hfree s k1 k2 Hk; cbn [flagFree] in Hfree; cbn [rmatch];
    try (by apply Hstep); try done.
  - apply Hk. split; lia.
  - apply N.ltb_lt in Hfree. unfold step. destruct (rest s) as [|x t] eqn:Hr; [done|].
    rewrite !canonicalize_control by done. destruct (x =? c)%N; [|done].
    apply Hk. unfold extends, advance. simpl. rewrite Hr. simpl. lia.
  - destruct (decide (pos s = 0)); [|done]. apply Hk. split; lia.
  - destruct (rest s); [|done]. apply Hk. split; lia.
  - apply andb_true_iff in Hfree as [H1 H2].
    apply IH1; [done|]. intros s' Hs'. apply IH2; [done|]. intros s'' Hs''. apply Hk.
    destruct Hs' as [? ?], Hs'' as [? ?]. split; lia.
  - apply andb_true_iff in Hfree as [H1 H2].
    by rewrite (IH1 H1 s k1 k2), (IH2 H2 s k1 k2).
  - apply starLoop_flags; [|done]. intros. by apply IH1.
  - rewrite (IH1 Hfree s k1 k2) by done. rewrite (Hk s); [done|]. split; lia.
  - apply IH1; [done|]. intros s' Hs'. apply Hk. done.
Qed.

(** The two ways the labelled fields end, under any flags. *)
Lemma rmatch_blankLine_flags (f : flags) (s : mstate) (k : mstate -> option mstate) :
  (forall s', k s' = Some s') ->
  if blankLineAt (rest s)
  then exists m, rmatch f blankLine s k = Some m /\ caps m = caps s
  else rmatch f blankLine s k = None.
Proof.
  intros Hk. rewrite (rmatch_flagFree f flags_is blankLine eq_refl s k k) by done.
  by apply rmatch_blankLine.
Qed.

Lemma rmatch_lineBreak_flags (f : flags) (s : mstate) (k : mstate -> option mstate) :
  (forall s', k s' = Some s') ->
  if lineBreakAt (rest s)
  then exists m, rmatch f (seq [Opt (Chr CR); Chr LF]) s k = Some m /\ caps m = caps s
  else rmatch f (seq [Opt (Chr CR); Chr LF]) s k = None.
Proof.
  intros Hk.
  rewrite (rmatch_flagFree f flags_is (seq [Opt (Chr CR); Chr LF]) eq_refl s k k) by done.
  change (seq [Opt (Chr CR); Chr LF]) with (Seq (Opt (Chr CR)) (Seq (Chr LF) Eps)).
  rewrite rmatch_LBr. unfold lineBreakAt.
  destruct (lineBreak (rest s)) as [[n t]|]; [|done]. rewrite Hk. by eexists.
Qed.

Section IgnoreCase.

Variable f : flags.
Hypothesis Hf : ignoreCase f = true.

Lemma canonicalize_flags (c : char) : canonicalize f c = canonicalize flags_i c.
Proof using Hf. unfold canonicalize. by rewrite Hf. Qed.

Lemma rmatch_word (w : jstring) :
  forall (word t : jstring) (s : mstate) (k : mstate -> option mstate),
    rest s = word ++ t -> equalsIgnoreCase word w ->
    rmatch f (seq (map Chr w)) s k
    = k {| pos := length w + pos s; rest := t; caps := caps s |}.
Proof using Hf.
  induction w as [|p w IH]; intros word t s k Hrest Heq.
  - destruct word; [|done]. destruct s as [i r cs]. simpl in *. by subst.
  - destruct word as [|c word]; [done|].
    unfold equalsIgnoreCase in Heq. cbn [map] in Heq. injection Heq as Hc Hw.
    change {| ignoreCase := true; dotAll := false |} with flags_i in Hc.
    change (seq (map Chr (p :: w))) with (Seq (Chr p) (seq (map Chr w))).
    rewrite rmatch_Seq. cbn [rmatch]. unfold step. rewrite Hrest. cbn [app].
    rewrite !canonicalize_flags, Hc, N.eqb_refl.
    rewrite (IH word t); [|done|done]. cbn [advance pos caps].
    by replace (length w + S (pos s)) with (length (p :: w) + pos s) by (simpl; lia).
Qed.

Lemma rmatch_word_none (w : jstring) :
  forall (s : mstate) (k : mstate -> option mstate),
    startsWithIgnoreCase (rest s) w = false ->
    rmatch f (seq (map Chr w)) s k = None.
Proof using Hf.
  induction w as [|p w IH]; intros s k Hno.
  - by destruct (rest s).
  - change (seq (map Chr (p :: w))) with (Seq (Chr p) (seq (map Chr w))).
    rewrite rmatch_Seq. cbn [rmatch]. unfold step. destruct (rest s) as [|c t]; [done|].
    cbn [startsWithIgnoreCase] in Hno.
    change {| ignoreCase := true; dotAll := false |} with flags_i in Hno.
    rewrite !canonicalize_flags.
    destruct (canonicalize flags_i c =? canonicalize flags_i p)%N; [|done].
    by apply IH.
Qed.


End IgnoreCase.

End LabelFacts.

Module LabelledFacts.
Import Txt RegExpFacts AbstractFacts LabelFacts.






Section Labelled.

Variable f : flags.
Hypothesis Hf : ignoreCase f = true.
Variables a b : string.
Variable term : regex.
Variable termAt : jstring -> bool.
Hypothesis Hterm :
  forall (s : mstate) (k : mstate -> option mstate),
    (forall s', k s' = Some s') ->
    if termAt (rest s)
    then exists m, rmatch f term s k = Some m /\ caps m = caps s
    else rmatch f term s k = None.

Local Abbreviation Value := (Seq (Group 1 (Star false Dot)) (Seq term Eps)).
Local Abbreviation Spaces := (Seq (Star true Space) Value).
Local Abbreviation Colon := (Seq (seq (map Chr (js ":"))) Spaces).
Local Abbreviation Labels := (Alt (seq (map Chr (js a))) (seq (map Chr (js b)))).

Lemma rmatch_lazy_dot (s : mstate) (k : mstate -> option mstate) :
  rmatch f (Star false Dot) s k = lazyRun (dotClass f) k (pos s) (caps s) (rest s).
Proof.
  destruct s as [i r cs]. cbn [rmatch pos rest caps].
  change (rmatch f Dot) with (step (dotClass f)).
  apply (starLoop_lazy (dotClass f) k r (S (length r))). lia.
Qed.



Lemma rmatch_Labels_none (R : regex) (s : mstate) (k : mstate -> option mstate) :
  startsWithIgnoreCase (rest s) (js a) = false ->
  startsWithIgnoreCase (rest s) (js b) = false ->
  rmatch f (Seq Labels R) s k = None.
Proof using Hf.
  intros Ha Hb. rewrite rmatch_Seq.
  change (rmatch f Labels s ?k')
    with (match rmatch f (seq (map Chr (js a))) s k' with
          | Some x => Some x
          | None => rmatch f (seq (map Chr (js b))) s k'
          end).
  by rewrite !rmatch_word_none.
Qed.

Lemma search_skip_labels (R : regex) (pre after : jstring) :
  forall i : nat,
    labelFree [a; b] pre after = true ->
    search f (Seq Labels R) i (pre ++ after)
    = search f (Seq Labels R) (length pre + i) after.
Proof using Hf.
  induction pre as [|c pre IH]; intros i Hno; [done|].
  unfold labelFree in Hno. cbn [forallb occursWithin] in Hno.
  rewrite !negb_orb, andb_true_r in Hno.
  apply andb_true_iff in Hno as [[Ha1 Ha2]%andb_true_iff [Hb1 Hb2]%andb_true_iff].
  apply negb_true_iff in Ha1, Hb1.
  cbn [search app]. rewrite rmatch_Labels_none by done.
  rewrite IH.
  - by replace (length pre + S i) with (length (c :: pre) + i) by (simpl; lia).
  - unfold labelFree. cbn [forallb]. by rewrite Ha2, Hb2.
Qed.

(** Without one of the two labels there is no match. *)
Lemma exec_labelled_none (text : jstring) :
  js a ≠ [] -> js b ≠ [] ->
  labelFree [a; b] text [] = true -> exec f (labelled a b term) text = None.
Proof using Hf.
  intros Ha Hb Hno. unfold exec.
  change (labelled a b term) with (Seq Labels Colon).
  rewrite <- (app_nil_r text) at 1. rewrite search_skip_labels by done.
  cbn [search]. rewrite rmatch_Labels_none; [done| |]; cbn [rest].
  - by destruct (js a).
  - by destruct (js b).
Qed.



End Labelled.

End LabelledFacts.

(** ** The labelled fields of the text parser *)

Module FieldFacts.
Import Txt RegExpFacts AbstractFacts LabelFacts LabelledFacts.

Lemma titleRegex_labelled : titleRegex = labelled "Title" "Internet-Draft" blankLine.
Proof. done. Qed.

Lemma authorRegex_labelled : authorRegex = labelled "Author" "Authors" blankLine.
Proof. done. Qed.

Lemma dateRegex_labelled :
  dateRegex = labelled "Date" "Published" (seq [Opt (Chr CR); Chr LF]).
Proof. done. Qed.

Lemma statusRegex_labelled :
  statusRegex = labelled "Status of this Memo" "Category" blankLine.
Proof. done. Qed.








Lemma startsWithIgnoreCase_longer (s w more : jstring) :
  startsWithIgnoreCase s w = false -> startsWithIgnoreCase s (w ++ more) = false.
Proof.
  revert s. induction w as [|p w IH]; intros s H; [done|].
  destruct s as [|c s]; [done|]. cbn [app startsWithIgnoreCase] in *.
  destruct (_ =? _)%N; [|done]. simpl in *. by apply IH.
Qed.

Lemma occursWithin_longer (w more pre after : jstring) :
  occursWithin w pre after = false -> occursWithin (w ++ more) pre after = false.
Proof.
  induction pre as [|c pre IH]; [done|]. cbn [occursWithin].
  intros [H1 H2]%orb_false_iff. by rewrite IH, startsWithIgnoreCase_longer.
Qed.

End FieldFacts.

Import LabelFacts LabelledFacts FieldFacts.

(** X4. A text in which none of the labels occurs gives the metadata of the
    defaults: the number and the URL asked for, the title "RFC" followed by
    the number, no author, and an empty date, status and abstract. *)
Theorem parseTxtRfc_defaults (text rfcNumber url : jstring)
    (Hnone : labelFree metadataLabels text [] = true) :
  metadata (parseTxtRfc text rfcNumber url)
  = RfcMetadata.mk rfcNumber (js "RFC " ++ rfcNumber) [] [] [] [] url.
Proof.
  unfold labelFree, metadataLabels in Hnone. cbn [forallb] in Hnone.
  repeat (apply andb_true_iff in Hnone as [?%negb_true_iff Hnone]).
  assert (occursWithin (js "Authors") text [] = false) as Hauthors
    by (by apply (occursWithin_longer (js "Author") (js "s"))).
  cbn [metadata parseTxtRfc].
  unfold extractTitle, extractAuthors, extractDate, extractStatus, extractAbstract.
  rewrite titleRegex_labelled, authorRegex_labelled, dateRegex_labelled,
    statusRegex_labelled.
  rewrite !exec_labelled_none, AbstractFacts.exec_abstractRegex_none;
    try done; unfold labelFree; cbn [forallb]; by repeat (apply andb_true_iff; split);
    try apply negb_true_iff.
Qed.

Lemma parseTxtRfc_defaults_witness :
  labelFree metadataLabels
    (js "Request for Comments\n\n1. Scope\n   Nothing yet.") [] = true
  /\ metadata (parseTxtRfc (js "Request for Comments\n\n1. Scope\n   Nothing yet.")
                 (js "9999") (txtUrl (js "9999")))
     = RfcMetadata.mk (js "9999") (js "RFC 9999") [] [] [] [] (txtUrl (js "9999")).
Proof.
  assert (labelFree metadataLabels
            (js "Request for Comments\n\n1. Scope\n   Nothing yet.") [] = true) as Hnone
    by (by vm_compute).
  split; [exact Hnone|].
  exact (parseTxtRfc_defaults _ (js "9999") (txtUrl (js "9999")) Hnone).
Defined.


Module FieldMatch.
Import Txt RegExpFacts AbstractFacts.


Lemma labelFree_pair (a b : string) (pre after : jstring) :
  occursWithin (js a) pre after = false -> occursWithin (js b) pre after = false ->
  labelFree [a; b] pre after = true.
Proof. intros Ha Hb. unfold labelFree. cbn [forallb]. by rewrite Ha, Hb. Qed.





End FieldMatch.

Import FieldMatch.










(** ** The service, further *)

Section ServiceMore.

Variable respond : list jstring -> jstring -> outcome jstring.
Variable JSDOM : jstring -> outcome document.
Variable innerHTML : node -> jstring.

Local Abbreviation fetch := (fetchRfc respond JSDOM innerHTML).
Local Abbreviation fetchMany := (fetchAll respond JSDOM innerHTML).

(** What a call does to the logs: they only grow, by at most two requests
    and one line. *)
Lemma fetchRfc_logs (rfcNumber : jstring) (st : state) :
  exists sent lines,
    requests (fetch rfcNumber st).2 = requests st ++ sent
    /\ console (fetch rfcNumber st).2 = console st ++ lines
    /\ length sent <= 2 /\ length lines <= 1
    /\ (cache st !! rfcNumber ≠ None -> sent = []).
Proof.
  destruct (cache st !! rfcNumber) as [rfc|] eqn:Hc.
  - rewrite (fetchRfc_hit _ _ _ _ _ rfc) by done. exists [], []. simpl.
    rewrite !app_nil_r. repeat split; auto.
  - rewrite fetchRfc_miss by done.
    destruct (htmlAttempt respond JSDOM innerHTML rfcNumber st).
    + exists [htmlUrl rfcNumber], []. simpl. rewrite app_nil_r.
      repeat split; auto; done.
    + destruct (txtResponse respond rfcNumber st);
        exists [htmlUrl rfcNumber; txtUrl rfcNumber], [fallbackNotice rfcNumber];
        simpl; repeat split; auto; done.
Qed.

Lemma fetchRfc_keyed (rfcNumber : jstring) (st : state) :
  cacheKeyed st ->
  cacheKeyed (fetch rfcNumber st).2
  /\ forall rfc, (fetch rfcNumber st).1 = Return rfc ->
                 RfcMetadata.number (metadata rfc) = rfcNumber
                 /\ (RfcMetadata.url (metadata rfc) = htmlUrl rfcNumber
                     \/ RfcMetadata.url (metadata rfc) = txtUrl rfcNumber).
Proof.
  intros Hst.
  assert (forall rfc : RfcContent,
             RfcMetadata.number (metadata rfc) = rfcNumber
             /\ (RfcMetadata.url (metadata rfc) = htmlUrl rfcNumber
                 \/ RfcMetadata.url (metadata rfc) = txtUrl rfcNumber) ->
             cacheKeyed (mkState (<[rfcNumber := rfc]> (cache st))
                           (requests st) (console st) (parsed st))) as Hins.
  { intros rfc Hrfc k rfc'. simpl. destruct (decide (k = rfcNumber)) as [->|Hk].
    - rewrite lookup_insert_eq. by intros [= <-].
    - rewrite lookup_insert_ne by done. apply Hst. }
  destruct (cache st !! rfcNumber) as [rfc|] eqn:Hc.
  - rewrite (fetchRfc_hit _ _ _ _ _ rfc) by done. simpl. split; [done|].
    intros ? [= <-]. by apply Hst.
  - rewrite fetchRfc_miss by done.
    destruct (htmlAttempt respond JSDOM innerHTML rfcNumber st) as [rfc|e] eqn:Hh.
    + assert (RfcMetadata.number (metadata rfc) = rfcNumber
              /\ (RfcMetadata.url (metadata rfc) = htmlUrl rfcNumber
                  \/ RfcMetadata.url (metadata rfc) = txtUrl rfcNumber)) as Hrfc.
      { unfold htmlAttempt, parseHtmlRfc in Hh.
        destruct (respond (requests st) (htmlUrl rfcNumber)); [|done].
        destruct (JSDOM a); [|done]. injection Hh as <-. simpl. auto. }
      split; [|by intros ? [= <-]].
      intros k rfc'. simpl. exact (Hins rfc Hrfc k rfc').
    + destruct (txtResponse respond rfcNumber st) as [text|cause].
      * assert (RfcMetadata.number
                  (metadata (Txt.parseTxtRfc text rfcNumber (txtUrl rfcNumber)))
                = rfcNumber
                /\ (RfcMetadata.url
                      (metadata (Txt.parseTxtRfc text rfcNumber (txtUrl rfcNumber)))
                    = htmlUrl rfcNumber
                    \/ RfcMetadata.url
                         (metadata (Txt.parseTxtRfc text rfcNumber (txtUrl rfcNumber)))
                       = txtUrl rfcNumber)) as Hrfc by (simpl; auto).
        split; [|by intros ? [= <-]].
        intros k rfc'. cbv zeta. cbn [snd cache]. exact (Hins _ Hrfc k rfc').
      * split; [|done]. intros k rfc'. simpl. apply Hst.
Qed.

(** X9. When the cache has no document for the number, the HTML variant
    answers and the tree builder accepts the answer, the call returns what
    the HTML parser makes of the tree, under the URL of the HTML variant,
    and stores it; the HTML URL is the only request, the console stays as it
    was, and the text variant is not asked for. *)
Theorem fetchRfc_html_first
    (rfcNumber html : jstring) (doc : document) (st : state)
    (Hmiss : cache st !! rfcNumber = None)
    (Hhtml : respond (requests st) (htmlUrl rfcNumber) = Return html)
    (Htree : JSDOM html = Return doc) :
  fetch rfcNumber st
  = (Return (parseDocument innerHTML doc rfcNumber (htmlUrl rfcNumber)),
     mkState (<[rfcNumber := parseDocument innerHTML doc rfcNumber (htmlUrl rfcNumber)]>
                (cache st))
       (requests st ++ [htmlUrl rfcNumber]) (console st) (parsed st ++ [html]))
  /\ (txtUrl rfcNumber ∉ [htmlUrl rfcNumber])
  /\ RfcMetadata.url (metadata (parseDocument innerHTML doc rfcNumber (htmlUrl rfcNumber)))
     = htmlUrl rfcNumber.
Proof.
  split; [|split; [|done]].
  - rewrite fetchRfc_miss by done. unfold htmlAttempt, htmlParsed, parseHtmlRfc.
    by rewrite Hhtml, Htree.
  - intros [E|E%not_elem_of_nil]%elem_of_cons; [|done]. by apply txtUrl_htmlUrl in E.
Qed.

(** X10. The cache stays keyed by number: if every cached document carries
    the number it is stored under and one of the two URLs of that number,
    this still holds after any run of calls, and a call that returns gives a
    document that carries the number asked for. *)
Theorem cache_keyed_by_number
    (others : list jstring) (rfcNumber : jstring) (st : state)
    (Hst : cacheKeyed st) :
  cacheKeyed (fetchMany others st)
  /\ forall rfc, (fetch rfcNumber (fetchMany others st)).1 = Return rfc ->
                 RfcMetadata.number (metadata rfc) = rfcNumber
                 /\ (RfcMetadata.url (metadata rfc) = htmlUrl rfcNumber
                     \/ RfcMetadata.url (metadata rfc) = txtUrl rfcNumber).
Proof.
  assert (cacheKeyed (fetchMany others st)) as Hall.
  { revert st Hst. induction others as [|other others IH]; intros st Hst; [done|].
    simpl. apply IH. by apply fetchRfc_keyed. }
  split; [done|]. by apply fetchRfc_keyed.
Qed.

(** X11. The logs of a run of calls only grow: the requests by at most two
    per call, the console by at most one line per call, and a call for a
    cached number sends nothing. *)
Theorem fetchAll_request_bound (rfcNumbers : list jstring) (st : state) :
  (exists sent lines,
      requests (fetchMany rfcNumbers st) = requests st ++ sent
      /\ console (fetchMany rfcNumbers st) = console st ++ lines
      /\ length sent <= 2 * length rfcNumbers
      /\ length lines <= length rfcNumbers)
  /\ forall rfcNumber, cache st !! rfcNumber ≠ None ->
                       requests (fetch rfcNumber (fetchMany rfcNumbers st)).2
                       = requests (fetchMany rfcNumbers st).
Proof.
  split.
  - revert st. induction rfcNumbers as [|n ns IH]; intros st.
    + exists [], []. simpl. by rewrite !app_nil_r.
    + simpl. destruct (IH (fetch n st).2) as (sent' & lines' & -> & -> & Hs & Hl).
      destruct (fetchRfc_logs n st) as (sent & lines & -> & -> & Hs' & Hl' & _).
      exists (sent ++ sent'), (lines ++ lines'). rewrite <- !app_assoc, !length_app.
      repeat split; lia.
  - intros rfcNumber Hin.
    destruct (cache st !! rfcNumber) as [rfc|] eqn:Hc; [|done].
    by rewrite (fetchRfc_hit _ _ _ _ _ rfc)
      by (by apply fetchAll_keeps).
Qed.

End ServiceMore.

Lemma fetchRfc_html_first_witness :
  cache freshState !! js "7230" = None
  /\ htmlOnly (requests freshState) (htmlUrl (js "7230")) = Return rankMarkup
  /\ exampleJSDOM rankMarkup = Return rankDocument
  /\ (fetchRfc htmlOnly exampleJSDOM serializeChildren (js "7230") freshState).1
     = Return (parseDocument serializeChildren rankDocument (js "7230")
                 (htmlUrl (js "7230")))
  /\ requests (fetchRfc htmlOnly exampleJSDOM serializeChildren (js "7230") freshState).2
     = [htmlUrl (js "7230")].
Proof.
  assert (cache freshState !! js "7230" = None) as Hmiss by done.
  assert (htmlOnly (requests freshState) (htmlUrl (js "7230")) = Return rankMarkup)
    as Hhtml by (by vm_compute).
  assert (exampleJSDOM rankMarkup = Return rankDocument) as Htree by (by vm_compute).
  split; [exact Hmiss|]. split; [exact Hhtml|]. split; [exact Htree|].
  pose proof (proj1 (fetchRfc_html_first htmlOnly exampleJSDOM serializeChildren
                       (js "7230") rankMarkup rankDocument freshState
                       Hmiss Hhtml Htree)) as ->.
  done.
Defined.

Lemma cache_keyed_by_number_witness :
  cacheKeyed freshState
  /\ cacheKeyed (fetchAll textOnly exampleJSDOM serializeChildren
                   [js "2616"; js "7230"] freshState).
Proof.
  assert (cacheKeyed freshState) as Hst by (intros k rfc Hk; exfalso; exact (lookup_empty_Some k rfc Hk)).
  split; [exact Hst|].
  exact (proj1 (cache_keyed_by_number textOnly exampleJSDOM serializeChildren
                  [js "2616"; js "7230"] (js "2616") freshState Hst)).
Defined.

(** ** The HTML parser, further *)

Module TreeFacts.
Import DomFacts.

(** What is below an element of a subtree is in that subtree. *)
Lemma descendantsOrSelf_closed (n : node) (ancestors : list label) (e e' : located) :
  e ∈ descendantsOrSelf ancestors n -> e' ∈ descendants e ->
  e' ∈ descendantsOrSelf ancestors n.
Proof.
  revert ancestors. induction n as [d|d|t classes children IH] using node_ind;
    intros ancestors He He'; [by apply not_elem_of_nil in He..|].
  cbn [descendantsOrSelf] in *. apply elem_of_cons in He as [->|He].
  - right. exact He'.
  - right. apply list_elem_of_In, in_flat_map in He as (child & Hchild & He).
    apply list_elem_of_In, in_flat_map. exists child. split; [done|].
    apply list_elem_of_In. rewrite Forall_forall in IH.
    apply IH; [by apply list_elem_of_In| by apply list_elem_of_In |done].
Qed.

Lemma querySelectorAll_filter (sels : list selector) (doc : document) (e : located) :
  e ∈ querySelectorAll sels doc
  <-> matchesLocated sels e = true
      /\ exists n, n ∈ doc /\ e ∈ descendantsOrSelf [] n.
Proof.
  unfold querySelectorAll. rewrite list_elem_of_In, in_flat_map. split.
  - intros (n & Hn & He). rewrite collect_filter in He.
    apply filter_In in He as [He Hm]. split; [done|].
    exists n. by rewrite !list_elem_of_In.
  - intros (Hm & n & Hn & He). exists n. rewrite collect_filter.
    split; [by apply list_elem_of_In|]. apply filter_In.
    split; [by apply list_elem_of_In|done].
Qed.

(** What an element query finds below a result of a document query is
    itself a result of the document query. *)
Lemma elQuerySelectorAll_nested (sels : list selector) (doc : document)
    (e e' : located) :
  e ∈ querySelectorAll sels doc -> e' ∈ elQuerySelectorAll sels e ->
  e' ∈ querySelectorAll sels doc.
Proof.
  rewrite !querySelectorAll_filter, elQuerySelectorAll_filter.
  intros (_ & n & Hn & He) [He' Hm]%list_elem_of_In%filter_In.
  split; [done|]. exists n. split; [done|].
  eapply descendantsOrSelf_closed; [exact He|]. by apply list_elem_of_In.
Qed.

Lemma trimmedText_noOuterSpace (e : option located) : noOuterSpace (trimmedText e).
Proof. destruct e; [apply trim_noOuterSpace|done]. Qed.

End TreeFacts.

Section HtmlMore.

Variable innerHTML : node -> jstring.

Import DomFacts TreeFacts.

(** X12. The metadata of the HTML parser: the number and the URL are the
    ones given; the title is never empty, and is either the default or free
    of white space at both ends; no author is empty or has white space at
    an end; the date, the status, the abstract and the full text have no
    white space at their ends. *)
Theorem html_metadata_trimmed (doc : document) (rfcNumber url : jstring) :
  let rfc := parseDocument innerHTML doc rfcNumber url in
  RfcMetadata.number (metadata rfc) = rfcNumber
  /\ RfcMetadata.url (metadata rfc) = url
  /\ RfcMetadata.title (metadata rfc) ≠ []
  /\ (RfcMetadata.title (metadata rfc) = js "RFC " ++ rfcNumber
      \/ noOuterSpace (RfcMetadata.title (metadata rfc)))
  /\ Forall (fun a => a ≠ [] /\ noOuterSpace a) (RfcMetadata.authors (metadata rfc))
  /\ noOuterSpace (RfcMetadata.date (metadata rfc))
  /\ noOuterSpace (RfcMetadata.status (metadata rfc))
  /\ noOuterSpace (RfcMetadata.abstract (metadata rfc))
  /\ noOuterSpace (fullText rfc).
Proof.
  cbv zeta. unfold parseDocument. cbn [metadata fullText RfcMetadata.number RfcMetadata.url
    RfcMetadata.title RfcMetadata.authors RfcMetadata.date RfcMetadata.status
    RfcMetadata.abstract].
  split; [done|]. split; [done|]. split; [|split; [|split]].
  - destruct (truthy _) eqn:Ht; [by apply truthy_nonempty|done].
  - destruct (truthy _); [right; apply trimmedText_noOuterSpace|by left].
  - unfold authorsOf.
    rewrite (foldl_push (fun e => truthy (trimmedText (Some e)))
               (fun e => trimmedText (Some e))).
    apply Forall_forall. intros a Ha.
    apply list_elem_of_In, in_map_iff in Ha as (e & <- & He).
    apply filter_In in He as [_ He]. split; [by apply truthy_nonempty|].
    apply trimmedText_noOuterSpace.
  - repeat split; apply trimmedText_noOuterSpace.
Qed.

(** X13. Nested section elements are listed twice: a subsection of an
    emitted section comes from a section element that the loop over the
    sections of the document visits too, so, when that element has an h2, h3
    or h4 heading with text, it is also emitted as a section of its own, with
    the same content. A list of subsections is never empty. *)
Theorem nested_sections_repeated
    (doc : document) (rfcNumber url : jstring)
    (s : RfcSection.t) (subs : list Subsection.t) (sub : Subsection.t)
    (Hs : s ∈ sections (parseDocument innerHTML doc rfcNumber url))
    (Hsubs : RfcSection.subsections s = Some subs)
    (Hsub : sub ∈ subs) :
  exists e : located,
    e ∈ querySelectorAll [tag "section"] doc
    /\ sub = subsectionOf innerHTML e
    /\ (truthy (firstHeading [tag "h2"; tag "h3"; tag "h4"] e) = true ->
        sectionOf innerHTML e ∈ sections (parseDocument innerHTML doc rfcNumber url)
        /\ RfcSection.content (sectionOf innerHTML e) = Subsection.content sub).
Proof.
  cbn [sections parseDocument] in *. rewrite sectionsOf_map in *.
  apply list_elem_of_In, in_map_iff in Hs as (outer & <- & Houter).
  apply filter_In in Houter as [Houter _].
  cbn [RfcSection.subsections sectionOf] in Hsubs.
  case_bool_decide; [|done]. injection Hsubs as <-.
  rewrite subsectionsOf_map in Hsub.
  apply list_elem_of_In, in_map_iff in Hsub as (e & <- & He).
  apply filter_In in He as [He _].
  assert (e ∈ querySelectorAll [tag "section"] doc) as Hin.
  { eapply elQuerySelectorAll_nested; by apply list_elem_of_In. }
  exists e. split; [done|]. split; [done|]. intros Ht. split; [|done].
  apply list_elem_of_In, in_map. apply filter_In. split; [by apply list_elem_of_In|done].
Qed.

End HtmlMore.

Lemma nested_sections_repeated_witness :
  RfcSection.mk (js "Outer")
    (js "<h2>Outer</h2><section><h3>Inner</h3><p>Text.</p></section>")
    (Some [Subsection.mk (js "Inner") (js "<h3>Inner</h3><p>Text.</p>")])
  ∈ sections (parseDocument serializeChildren nestedDocument (js "1") [])
  /\ exists e : located,
       e ∈ querySelectorAll [tag "section"] nestedDocument
       /\ Subsection.mk (js "Inner") (js "<h3>Inner</h3><p>Text.</p>")
          = subsectionOf serializeChildren e.
Proof.
  assert (RfcSection.mk (js "Outer")
            (js "<h2>Outer</h2><section><h3>Inner</h3><p>Text.</p></section>")
            (Some [Subsection.mk (js "Inner") (js "<h3>Inner</h3><p>Text.</p>")])
          ∈ sections (parseDocument serializeChildren nestedDocument (js "1") [])) as Hs
    by (vm_compute; apply list_elem_of_here).
  split; [exact Hs|].
  destruct (nested_sections_repeated serializeChildren nestedDocument (js "1") []
              _ [Subsection.mk (js "Inner") (js "<h3>Inner</h3><p>Text.</p>")]
              (Subsection.mk (js "Inner") (js "<h3>Inner</h3><p>Text.</p>"))
              Hs eq_refl (list_elem_of_here _ _))
    as (e & He & Hsub & _).
  by exists e.
Defined.

(** ** The two listings *)

Module ListingFacts.
Import RegExpFacts.

(** A loop that pushes what [f] gives, when it gives something. *)
Lemma foldl_omap {A B} (f : A -> option B) (g : list B -> A -> list B) (l : list A) :
  (forall acc x, g acc x = match f x with Some y => acc ++ [y] | None => acc end) ->
  forall acc, foldl g acc l = acc ++ omap f l.
Proof.
  intros Hg. induction l as [|x l IH]; intros acc; simpl.
  - by rewrite app_nil_r.
  - rewrite IH, Hg. destruct (f x); [|done]. by rewrite <- app_assoc.
Qed.

Lemma omap_length_le {A B} (f : A -> option B) (l : list A) :
  length (omap f l) <= length l.
Proof. induction l as [|x l IH]; [done|]. cbn. destruct (f x); cbn in *; lia. Qed.

(** A match runs the continuation, and the match is what the continuation
    gave. *)
Lemma starLoop_reaches (g : bool)
    (iter : mstate -> (mstate -> option mstate) -> option mstate) :
  (forall s k m, iter s k = Some m -> exists s', k s' = Some m) ->
  forall (n : nat) (s : mstate) (k : mstate -> option mstate) (m : mstate),
    starLoop g iter k n s = Some m -> exists s', k s' = Some m.
Proof.
  intros Hiter. induction n as [|n IH]; intros s k m H; cbn [starLoop] in H.
  - by exists s.
  - destruct g.
    + destruct (iter s _) as [m'|] eqn:Hone.
      * injection H as ->. apply Hiter in Hone as (s' & Hs').
        destruct (decide (pos s < pos s')); [|done]. by apply IH in Hs'.
      * by exists s.
    + destruct (k s) as [m'|] eqn:Hk.
      * injection H as ->. by exists s.
      * apply Hiter in H as (s' & Hs').
        destruct (decide (pos s < pos s')); [|done]. by apply IH in Hs'.
Qed.

Lemma rmatch_reaches (f : flags) (r : regex) :
  forall (s : mstate) (k : mstate -> option mstate) (m : mstate),
    rmatch f r s k = Some m -> exists s', k s' = Some m.
Proof.
  assert (forall p s k m, step p s k = Some m -> exists s', k s' = Some m) as Hstep.
  { intros p s k m. unfold step. destruct (rest s) as [|c t]; [done|].
    destruct (p c); [|done]. intros H. by eexists. }
  induction r as [|c| | | | | |r1 IH1 r2 IH2|r1 IH1 r2 IH2|g r1 IH1|r1 IH1|i r1 IH1];
    intros s k m H; cbn [rmatch] in H; try (by apply Hstep in H).
  - by exists s.
  - destruct (decide (pos s = 0)); [|done]. by exists s.
  - destruct (rest s); [|done]. by exists s.
  - apply IH1 in H as (s' & H). by apply IH2 in H.
  - destruct (rmatch f r1 s k) as [m'|] eqn:H1.
    + injection H as ->. by apply IH1 in H1.
    + by apply IH2 in H.
  - by apply (starLoop_reaches g (rmatch f r1) IH1) in H.
  - destruct (rmatch f r1 s k) as [m'|] eqn:H1.
    + injection H as ->. by apply IH1 in H1.
    + by exists s.
  - apply IH1 in H as (s' & H). by eexists.
Qed.

Lemma search_reaches (f : flags) (r : regex) (input : jstring) (i : nat) (m : mstate) :
  search f r i input = Some m ->
  exists j suffix, rmatch f r {| pos := j; rest := suffix; caps := [] |} Some = Some m.
Proof.
  revert i. induction input as [|c t IH]; intros i H; cbn [search] in H.
  - destruct (rmatch f r _ Some) eqn:Hm; [|done]. injection H as ->. by exists i, [].
  - destruct (rmatch f r _ Some) eqn:Hm.
    + injection H as ->. by exists i, (c :: t).
    + by apply IH in H.
Qed.

(** A greedy run stops after some characters of the class. *)
Lemma greedyRun_reaches (p : char -> bool) (k : mstate -> option mstate)
    (r : jstring) (i : nat) (cs : list (nat * jstring)) (m : mstate) :
  greedyRun p k i cs r = Some m ->
  exists n, n <= length r /\ Forall (fun c => p c = true) (take n r)
            /\ k {| pos := i + n; rest := drop n r; caps := cs |} = Some m.
Proof.
  assert (forall j r', k {| pos := j; rest := r'; caps := cs |} = Some m ->
                       exists n, n <= length r' /\ Forall (fun c => p c = true) (take n r')
                                 /\ k {| pos := j + n; rest := drop n r'; caps := cs |}
                                    = Some m) as Hstop.
  { intros j r' Hk. exists 0. rewrite Nat.add_0_r. split; [lia|]. by split. }
  revert i. induction r as [|c t IH]; intros i H; cbn [greedyRun] in H.
  - by apply Hstop.
  - destruct (p c) eqn:Hc; [|by apply Hstop].
    destruct (greedyRun p k (S i) cs t) as [m'|] eqn:Hrun; [|by apply Hstop].
    injection H as ->. apply IH in Hrun as (n & Hn & Hall & Hk).
    exists (S n). simpl. split; [lia|]. split; [by constructor|].
    by replace (i + S n) with (S i + n) by lia.
Qed.

Lemma rmatch_star_digit (f : flags) (s : mstate) (k : mstate -> option mstate) :
  rmatch f (Star true Digit) s k = greedyRun isDigit k (pos s) (caps s) (rest s).
Proof.
  destruct s as [i r cs]. simpl.
  change (fun s k => rmatch f Digit s k) with (step isDigit).
  apply (starLoop_greedy isDigit k r (S (length r))). lia.
Qed.

(** What [(\d+)] captures: one digit or more. *)
Lemma rmatch_digits (f : flags) (s : mstate) (k : mstate -> option mstate) (m : mstate) :
  rmatch f (Group 1 (Plus Digit)) s k = Some m ->
  exists (d : jstring) (s' : mstate),
    d ≠ [] /\ Forall (fun c => isDigit c = true) d
    /\ k {| pos := pos s'; rest := rest s'; caps := (1, d) :: caps s' |} = Some m.
Proof.
  destruct s as [i r cs]. unfold Plus. cbn [rmatch]. unfold step at 1. cbn [rest].
  destruct r as [|c t]; [done|]. destruct (isDigit c) eqn:Hc; [|done].
  change (fun s k0 => step isDigit s k0) with (step isDigit).
  unfold advance. cbn [pos rest caps].
  rewrite (starLoop_greedy isDigit _ t (S (length t))) by lia.
  intros (n & Hn & Hall & Hk)%greedyRun_reaches. cbn [pos rest caps] in Hk.
  replace (S i + n - i) with (S n) in Hk by lia. cbn [take] in Hk.
  exists (c :: take n t). eexists {| pos := _; rest := _; caps := _ |}.
  split; [done|]. split; [by constructor|]. exact Hk.
Qed.

(** The number of a result of the search: [rfcMatch[1]] is there, and is
    made of digits. *)
Lemma exec_rfcMatchRegex (titleText : jstring) (m : mstate) :
  exec Txt.flags_i rfcMatchRegex titleText = Some m ->
  exists d, group 1 m = Some d /\ d ≠ [] /\ Forall (fun c => isDigit c = true) d.
Proof.
  unfold exec. intros (j & suffix & H)%search_reaches.
  change rfcMatchRegex
    with (Seq (Lit "RFC") (Seq (Plus Space) (Seq (Group 1 (Plus Digit)) Eps))) in H.
  cbn [rmatch] in H.
  apply rmatch_reaches in H as (s1 & H). apply rmatch_reaches in H as (s2 & H).
  apply rmatch_digits in H as (d & s' & Hd & Hall & H).
  cbn [rmatch] in H. injection H as <-. exists d. by repeat split.
Qed.

(** The comparison of the count with the limit, by the allowance. *)
Lemma reached_allowance (limit : jsNumber) (count : nat) :
  reached count limit
  = match allowance limit with
    | Some k => bool_decide (k <= count)
    | None => false
    end.
Proof.
  destruct limit as [q| | |]; cbn [reached allowance]; [|done|done|done].
  case_bool_decide as Hk.
  - apply QArith_base.Qle_bool_iff.
    eapply QArith_base.Qle_trans; [apply Qround.Qle_ceiling|].
    rewrite <- QArith_base.Zle_Qle. lia.
  - destruct (QArith_base.Qle_bool _ _) eqn:Hq; [|done].
    apply QArith_base.Qle_bool_iff, Qround.Qceiling_resp_le in Hq.
    rewrite Qround.Qceiling_Z in Hq. lia.
Qed.

End ListingFacts.

Section ListingTheorems.

Variable respond : list jstring -> jstring -> outcome jstring.
Variable JSDOM : jstring -> outcome document.
Variable getAttribute : node -> jstring -> option jstring.

Import ListingFacts TreeFacts.

Lemma searchResults_omap (doc : document) :
  searchResults getAttribute doc
  = omap (searchEntry getAttribute)
      (querySelectorAll [Simple (class "search-listing-content")] doc).
Proof.
  unfold searchResults. rewrite (foldl_omap (searchEntry getAttribute)); [done|].
  intros acc result. unfold searchEntry.
  destruct (elQuerySelector _ result) as [titleElement|]; [|done]. simpl.
  by destruct (exec _ _ _).
Qed.

Lemma latestLoop_step (limit : jsNumber) (element : located) (more : list located)
    (results : list RfcMetadata.t) (count : nat) :
  latestLoop limit (element :: more) results count
  = if reached count limit then results
    else match latestEntry element with
         | Some entry => latestLoop limit more (results ++ [entry]) (S count)
         | None => latestLoop limit more results count
         end.
Proof.
  assert (forall n : jstring,
             js "https://www.ietf.org/rfc/rfc" ++ n ++ js ".txt" = txtUrl n) as Hurl
    by done.
  cbn [latestLoop]. destruct (reached count limit); [done|]. unfold latestEntry.
  destruct (elQuerySelectorAll [tag "td"] element) as [|cell0 [|cell1 [|cell2 ?]]];
    try done.
  destruct (elQuerySelector [tag "a"] cell0) as [rfcLink|]; [|done].
  cbn [mbind option_bind]. destruct (truthy _); [|done]. by rewrite Hurl.
Qed.

Lemma latestLoop_take (limit : jsNumber) (rfcElements : list located) :
  forall (results : list RfcMetadata.t) (count : nat),
    latestLoop limit rfcElements results count
    = results ++ match allowance limit with
                 | Some k => take (k - count) (omap latestEntry rfcElements)
                 | None => omap latestEntry rfcElements
                 end.
Proof.
  induction rfcElements as [|element more IH]; intros results count.
  - simpl. destruct (allowance limit); by rewrite ?take_nil, app_nil_r.
  - rewrite latestLoop_step, reached_allowance. cbn [omap list_omap].
    destruct (allowance limit) as [k|] eqn:Hk.
    + case_bool_decide as Hle.
      * replace (k - count) with 0 by lia. by rewrite take_0, app_nil_r.
      * destruct (latestEntry element) as [entry|]; rewrite IH, ?Hk; [|done].
        rewrite <- app_assoc. cbn [app].
        by replace (k - count) with (S (k - S count)) by lia.
    + destruct (latestEntry element) as [entry|]; rewrite IH, ?Hk; [|done].
      by rewrite <- app_assoc.
Qed.

(** How a call of [searchRfcs] runs. *)
Lemma searchRfcs_run (keyword : jstring) (st : state) :
  searchRfcs respond JSDOM getAttribute keyword st
  = match Uri.encodeURIComponent keyword with
    | Throw e => (Throw (searchError e), st)
    | Return query =>
        match respond (requests st) (searchUrl query) with
        | Throw e => (Throw (searchError e), requested (searchUrl query) st)
        | Return data =>
            match JSDOM data with
            | Throw e => (Throw (searchError e), requested (searchUrl query) st)
            | Return doc =>
                (Return (searchResults getAttribute doc), requested (searchUrl query) st)
            end
        end
    end.
Proof.
  unfold searchRfcs, try_catch, bind, lift, axios_get, ret, throw, searchUrl.
  destruct (Uri.encodeURIComponent keyword) as [query|e]; [|done].
  destruct (respond (requests st) _) as [data|e]; [|done].
  cbn [cache requests console parsed]. by destruct (JSDOM data).
Qed.

(** How a call of [getLatestRfcs] runs. *)
Lemma getLatestRfcs_run (limit : option jsNumber) (st : state) :
  getLatestRfcs respond JSDOM limit st
  = match respond (requests st) latestUrl with
    | Throw e => (Throw (latestError e), requested latestUrl st)
    | Return data =>
        match JSDOM data with
        | Throw e => (Throw (latestError e), requested latestUrl st)
        | Return doc =>
            (Return (latestLoop (default (Finite (QArith_base.inject_Z 10)) limit)
                       (querySelectorAllWhere tableRow doc) [] 0),
             requested latestUrl st)
        end
    end.
Proof.
  unfold getLatestRfcs, try_catch, bind, lift, axios_get, ret, throw, latestUrl.
  destruct (respond (requests st) _) as [data|e]; [|done].
  cbn [cache requests console parsed]. by destruct (JSDOM data).
Qed.

End ListingTheorems.


Module UriFacts.
Import Uri.

Lemma hexDigit_unescaped (d : N) : (d < 16)%N -> isUnescaped (hexDigit d) = true.
Proof.
  intros Hd.
  assert (d ∈ [0; 1; 2; 3; 4; 5; 6; 7; 8; 9; 10; 11; 12; 13; 14; 15]%N) as Hin.
  { rewrite !elem_of_cons. lia. }
  repeat (apply elem_of_cons in Hin as [->|Hin]; [by vm_compute|]).
  by apply not_elem_of_nil in Hin.
Qed.

Lemma lor_octet (a b : N) : (a < 256)%N -> (b < 256)%N -> (N.lor a b < 256)%N.
Proof.
  assert (forall x, (x < 256)%N -> (N.log2 x < 8)%N) as Hlog.
  { intros x Hx. destruct (N.eq_dec x 0%N) as [->|Hne]; [done|].
    apply (N.log2_lt_pow2 x 8%N); lia. }
  intros Ha Hb. destruct (N.eq_dec (N.lor a b) 0%N) as [->|Hne]; [done|].
  apply (N.log2_lt_pow2 _ 8%N); [lia|]. rewrite N.log2_lor.
  apply N.max_lub_lt; by apply Hlog.
Qed.

Lemma continuation_octet (x : N) : (N.lor 128 (N.land x 63) < 256)%N.
Proof. apply lor_octet; [done|]. pose proof (N.land_le_r x 63). lia. Qed.

Lemma utf8_octets (cp : N) :
  (cp < 1114112)%N -> Forall (fun octet => (octet < 256)%N) (utf8 cp).
Proof.
  intros Hcp. unfold utf8.
  assert (forall k bound, (cp < bound * 2 ^ k)%N -> (N.shiftr cp k < bound)%N) as Hshift.
  { intros k bound Hlt. rewrite N.shiftr_div_pow2.
    apply N.Div0.div_lt_upper_bound. lia. }
  destruct (N.ltb_spec cp 128); [repeat constructor; lia|].
  destruct (N.ltb_spec cp 2048).
  { repeat constructor; [|apply continuation_octet].
    apply lor_octet; [done|]. specialize (Hshift 6%N 32%N). lia. }
  destruct (N.ltb_spec cp 65536).
  { repeat constructor; try apply continuation_octet.
    apply lor_octet; [done|]. specialize (Hshift 12%N 16%N). lia. }
  repeat constructor; try apply continuation_octet.
  apply lor_octet; [done|]. specialize (Hshift 18%N 8%N). lia.
Qed.

Lemma percent_safe (octet : N) :
  (octet < 256)%N -> Forall (fun c => querySafe c = true) (percent octet).
Proof.
  intros Ho. unfold percent, querySafe. repeat constructor.
  - rewrite hexDigit_unescaped; [done|]. rewrite N.shiftr_div_pow2.
    apply N.Div0.div_lt_upper_bound. change (2 ^ 4)%N with 16%N. lia.
  - rewrite hexDigit_unescaped; [done|]. pose proof (N.land_le_r octet 15). lia.
Qed.

Lemma escape_safe (cp : N) :
  (cp < 1114112)%N -> Forall (fun c => querySafe c = true) (flat_map percent (utf8 cp)).
Proof.
  intros Hcp%utf8_octets. induction Hcp as [|octet octets Ho _ IH]; [done|].
  cbn [flat_map]. apply Forall_app. split; [by apply percent_safe|done].
Qed.

Lemma codePoint_bound (lead trail : char) :
  isLeadSurrogate lead = true -> isTrailSurrogate trail = true ->
  (codePoint lead trail < 1114112)%N.
Proof.
  unfold isLeadSurrogate, isTrailSurrogate, codePoint.
  intros [?%N.leb_le ?%N.leb_le]%andb_true_iff [?%N.leb_le ?%N.leb_le]%andb_true_iff.
  lia.
Qed.

(** What the encoder gives, and what it throws: by induction on the length
    of the input, since a surrogate pair takes two code units. *)
Lemma encodeURIComponent_cases (P : jstring -> outcome jstring -> Prop) :
  P [] (Return []) ->
  (forall c t, isUnescaped c = true -> P t (encodeURIComponent t) ->
               P (c :: t) (prepend [c] (encodeURIComponent t))) ->
  (forall c d t, isUnescaped c = false -> isLeadSurrogate c = true ->
                 isTrailSurrogate d = true -> P t (encodeURIComponent t) ->
                 P (c :: d :: t)
                   (prepend (flat_map percent (utf8 (codePoint c d)))
                      (encodeURIComponent t))) ->
  (forall c t, isUnescaped c = false -> isLeadSurrogate c = false ->
               isTrailSurrogate c = false -> P t (encodeURIComponent t) ->
               P (c :: t) (prepend (flat_map percent (utf8 c)) (encodeURIComponent t))) ->
  (forall s, P s (Throw URIError)) ->
  forall s, P s (encodeURIComponent s).
Proof.
  intros Hnil Hplain Hpair Hone Hthrow s.
  assert (forall n s, length s <= n -> P s (encodeURIComponent s)) as Hall;
    [|by apply (Hall (length s))].
  clear s. induction n as [|n IH]; intros s Hn.
  - destruct s; [exact Hnil|simpl in Hn; lia].
  - destruct s as [|c t]; [exact Hnil|]. simpl in Hn. cbn [encodeURIComponent].
    destruct (isUnescaped c) eqn:Hu; [apply Hplain; [done|apply IH; lia]|].
    destruct (isLeadSurrogate c) eqn:Hl.
    + destruct t as [|d t']; [apply Hthrow|].
      destruct (isTrailSurrogate d) eqn:Ht; [|apply Hthrow].
      apply Hpair; try done. apply IH. simpl in Hn. lia.
    + destruct (isTrailSurrogate c) eqn:Ht; [apply Hthrow|].
      apply Hone; try done. apply IH. lia.
Qed.

Lemma encodeURIComponent_throws (s : jstring) (e : JsError.t) :
  encodeURIComponent s = Throw e -> e = URIError.
Proof.
  revert e. apply (encodeURIComponent_cases
                     (fun _ o => forall e, o = Throw e -> e = URIError)); try done.
  - intros c t _ IH e. destruct (encodeURIComponent t); [done|]. intros [= <-]. by apply IH.
  - intros c d t _ _ _ IH e. destruct (encodeURIComponent t); [done|].
    intros [= <-]. by apply IH.
  - intros c t _ _ _ IH e. destruct (encodeURIComponent t); [done|].
    intros [= <-]. by apply IH.
  - by intros _ e [= <-].
Qed.

Lemma encodeURIComponent_safe (s query : jstring) :
  Forall (fun c => (c < 65536)%N) s ->
  encodeURIComponent s = Return query -> Forall (fun c => querySafe c = true) query.
Proof.
  revert query.
  apply (encodeURIComponent_cases
           (fun s o => forall query, Forall (fun c => (c < 65536)%N) s ->
                                     o = Return query ->
                                     Forall (fun c => querySafe c = true) query)).
  - by intros query _ [= <-].
  - intros c t Hc IH query [_ Ht]%Forall_cons.
    destruct (encodeURIComponent t) as [tail|]; [|done]. intros [= <-].
    constructor; [unfold querySafe; by rewrite Hc|by apply IH].
  - intros c d t _ Hl Ht IH query [_ [_ Hunits]%Forall_cons]%Forall_cons.
    destruct (encodeURIComponent t) as [tail|]; [|done]. intros [= <-].
    apply Forall_app. split; [|by apply IH]. by apply escape_safe, codePoint_bound.
  - intros c t _ _ _ IH query [Hc Hunits]%Forall_cons.
    destruct (encodeURIComponent t) as [tail|]; [|done]. intros [= <-].
    apply Forall_app. split; [|by apply IH]. apply escape_safe. lia.
  - done.
Qed.

Lemma encodeURIComponent_plain (s : jstring) :
  Forall (fun c => isUnescaped c = true) s -> encodeURIComponent s = Return s.
Proof.
  induction 1 as [|c t Hc _ IH]; [done|]. cbn [encodeURIComponent]. by rewrite Hc, IH.
Qed.

End UriFacts.

Section ListingProperties.

Variable respond : list jstring -> jstring -> outcome jstring.
Variable JSDOM : jstring -> outcome document.
Variable getAttribute : node -> jstring -> option jstring.

Import ListingFacts TreeFacts UriFacts.

Local Abbreviation search := (searchRfcs respond JSDOM getAttribute).
Local Abbreviation latest := (getLatestRfcs respond JSDOM).

Lemma searchRfcs_state (keyword : jstring) (st : state) :
  (search keyword st).2
  = match Uri.encodeURIComponent keyword with
    | Return query => requested (searchUrl query) st
    | Throw _ => st
    end.
Proof.
  rewrite searchRfcs_run. destruct (Uri.encodeURIComponent keyword) as [query|]; [|done].
  destruct (respond (requests st) (searchUrl query)) as [data|]; [|done].
  by destruct (JSDOM data).
Qed.

(** X14. A call of [searchRfcs] leaves the cache, the console and the record
    of the parses alone, and sends one request, for the search page with
    the encoded keyword, or none when the keyword cannot be encoded. What it
    throws is always one error, "Failed to search for RFCs: " followed by
    the text of what the encoder, the transport or the tree builder
    threw. *)
Theorem searchRfcs_effects (keyword : jstring) (st : state) :
  (search keyword st).2
  = match Uri.encodeURIComponent keyword with
    | Return query => requested (searchUrl query) st
    | Throw _ => st
    end
  /\ cache (search keyword st).2 = cache st
  /\ console (search keyword st).2 = console st
  /\ parsed (search keyword st).2 = parsed st
  /\ forall e, (search keyword st).1 = Throw e ->
       exists cause,
         e = JsError.Error (js "Failed to search for RFCs: " ++ JsError.toString cause)
         /\ (Uri.encodeURIComponent keyword = Throw cause /\ cause = Uri.URIError
             \/ exists query,
                  Uri.encodeURIComponent keyword = Return query
                  /\ (respond (requests st) (searchUrl query) = Throw cause
                      \/ exists data,
                           respond (requests st) (searchUrl query) = Return data
                           /\ JSDOM data = Throw cause)).
Proof.
  rewrite searchRfcs_run.
  destruct (Uri.encodeURIComponent keyword) as [query|e0] eqn:Henc.
  - destruct (respond (requests st) (searchUrl query)) as [data|e0] eqn:Hresp.
    + destruct (JSDOM data) as [doc|e0] eqn:Htree; repeat split; try done.
      intros e [= <-]. exists e0. split; [done|]. right. exists query.
      split; [done|]. right. by exists data.
    + repeat split; try done. intros e [= <-]. exists e0. split; [done|].
      right. exists query. split; [done|]. by left.
  - repeat split; try done. intros e [= <-]. exists e0. split; [done|]. left.
    split; [done|]. by apply encodeURIComponent_throws in Henc.
Qed.

(** X15. A call of [getLatestRfcs] leaves the cache, the console and the
    record of the parses alone and sends one request, for the page of the
    latest RFCs, whatever the limit. What it throws is always one error,
    "Failed to get latest RFCs: " followed by the text of what the transport
    or the tree builder threw. *)
Theorem getLatestRfcs_effects (limit : option jsNumber) (st : state) :
  (latest limit st).2 = requested latestUrl st
  /\ cache (latest limit st).2 = cache st
  /\ console (latest limit st).2 = console st
  /\ parsed (latest limit st).2 = parsed st
  /\ forall e, (latest limit st).1 = Throw e ->
       exists cause,
         e = JsError.Error (js "Failed to get latest RFCs: " ++ JsError.toString cause)
         /\ (respond (requests st) latestUrl = Throw cause
             \/ exists data, respond (requests st) latestUrl = Return data
                             /\ JSDOM data = Throw cause).
Proof.
  rewrite getLatestRfcs_run.
  destruct (respond (requests st) latestUrl) as [data|e0] eqn:Hresp.
  - destruct (JSDOM data) as [doc|e0] eqn:Htree; repeat split; try done.
    intros e [= <-]. exists e0. split; [done|]. right. by exists data.
  - repeat split; try done. intros e [= <-]. exists e0. split; [done|]. by left.
Qed.

(** X16. The entries of the search listing: the number is a non-empty run
    of digits, the title and the abstract have no white space at their
    ends, the authors, the date and the status are empty, and the URL starts
    with "http". There is at most one entry for each result element of the
    page, in the order of the page. *)
Theorem search_results_shape (doc : document) :
  Forall searchShaped (searchResults getAttribute doc)
  /\ searchResults getAttribute doc
     = omap (searchEntry getAttribute)
         (querySelectorAll [Simple (class "search-listing-content")] doc)
  /\ length (searchResults getAttribute doc)
     <= length (querySelectorAll [Simple (class "search-listing-content")] doc).
Proof.
  split; [|split; [apply searchResults_omap|]].
  - rewrite searchResults_omap. apply Forall_forall. intros r Hr.
    apply list_elem_of_omap in Hr as (result & _ & Hr). unfold searchEntry in Hr.
    apply bind_Some in Hr as (titleElement & _ & Hr).
    apply bind_Some in Hr as (rfcMatch & Hm & Hr). injection Hr as <-.
    apply exec_rfcMatchRegex in Hm as (d & -> & Hd & Hdigits).
    set (url := default [] (getAttribute titleElement.2 (js "href"))).
    unfold searchShaped. cbn [RfcMetadata.number RfcMetadata.title RfcMetadata.authors
      RfcMetadata.date RfcMetadata.status RfcMetadata.abstract RfcMetadata.url default].
    split; [done|]. split; [done|]. split; [apply trim_noOuterSpace|].
    split; [done|]. split; [done|]. split; [done|].
    split; [apply trimmedText_noOuterSpace|].
    destruct (startsWith url (js "http")) eqn:Hhttp; [exact Hhttp|]. by vm_compute.
  - rewrite searchResults_omap. apply omap_length_le.
Qed.

(** X17. The limit of [getLatestRfcs]: when the page is served and the tree
    is built, the call returns the entries of the rows of the table, in
    order, cut after as many as the limit lets through: the least whole
    number of entries that reaches a finite limit, none for a limit that is
    not positive, all of them for an infinite limit or for NaN, and ten
    for a call without limit. *)
Theorem getLatestRfcs_limit
    (limit : option jsNumber) (data : jstring) (doc : document) (st : state)
    (Hpage : respond (requests st) latestUrl = Return data)
    (Htree : JSDOM data = Return doc) :
  (latest limit st).1
  = Return match allowance (default (Finite (QArith_base.inject_Z 10)) limit) with
           | Some k => take k (omap latestEntry (querySelectorAllWhere tableRow doc))
           | None => omap latestEntry (querySelectorAllWhere tableRow doc)
           end
  /\ allowance (default (Finite (QArith_base.inject_Z 10)) None) = Some 10
  /\ (forall q, QArith_base.Qle q (QArith_base.inject_Z 0) ->
                (latest (Some (Finite q)) st).1 = Return []).
Proof.
  rewrite !getLatestRfcs_run, Hpage, Htree. cbn [fst].
  split; [|split; [done|]].
  - rewrite latestLoop_take. cbn [app].
    destruct (allowance _); [by rewrite Nat.sub_0_r|done].
  - intros q Hq. rewrite getLatestRfcs_run, Hpage, Htree. cbn [fst default].
    rewrite latestLoop_take. cbn [app]. unfold id. cbn [allowance].
    apply Qround.Qceiling_resp_le in Hq. rewrite Qround.Qceiling_Z in Hq.
    replace (Z.to_nat (Qround.Qceiling q)) with 0 by lia. done.
Qed.

(** X18. The entries of the listing of the latest RFCs, for every limit and
    every list of rows: the number is not empty and has no white space at
    its ends, nor have the title and the date; the authors, the status and
    the abstract are empty; the URL is the one of the text variant of that
    number, the one [fetchRfc] falls back to. The entries are no more than
    the rows. *)
Theorem latest_entries_shape (limit : jsNumber) (rfcElements : list located) :
  Forall latestShaped (latestLoop limit rfcElements [] 0)
  /\ length (latestLoop limit rfcElements [] 0) <= length rfcElements.
Proof.
  rewrite latestLoop_take. cbn [app].
  assert (Forall latestShaped (omap latestEntry rfcElements)) as Hall.
  { apply Forall_forall. intros r Hr.
    apply list_elem_of_omap in Hr as (element & _ & Hr). unfold latestEntry in Hr.
    destruct (elQuerySelectorAll [tag "td"] element) as [|cell0 [|cell1 [|cell2 ?]]];
      try done.
    apply bind_Some in Hr as (rfcLink & _ & Hr). destruct (truthy _) eqn:Ht; [|done].
    injection Hr as <-. unfold latestShaped. cbn.
    split; [by apply truthy_nonempty|]. split; [apply trim_noOuterSpace|].
    split; [apply trim_noOuterSpace|]. split; [done|].
    split; [apply trim_noOuterSpace|]. done. }
  pose proof (omap_length_le latestEntry rfcElements) as Hlen.
  destruct (allowance limit) as [k|]; [|done]. split.
  - by apply Forall_take.
  - rewrite length_take. lia.
Qed.

(** X19. The query of the search: when the keyword is made of code units,
    the URL requested is the address of the search page followed by letters,
    digits, marks and percent escapes only, so the keyword cannot add a
    parameter or a fragment to it; a keyword of letters, digits and marks is
    sent as it is. *)
Theorem searchRfcs_query_encoded (keyword : jstring) (st : state)
    (Hunits : Forall (fun c => (c < 65536)%N) keyword) :
  (requests (search keyword st).2 = requests st
   \/ exists query,
        requests (search keyword st).2 = requests st ++ [searchUrl query]
        /\ Forall (fun c => querySafe c = true) query)
  /\ (Forall (fun c => Uri.isUnescaped c = true) keyword ->
      requests (search keyword st).2 = requests st ++ [searchUrl keyword]).
Proof.
  rewrite searchRfcs_state. split.
  - destruct (Uri.encodeURIComponent keyword) as [query|] eqn:Henc; [|by left].
    right. exists query. split; [done|]. by eapply encodeURIComponent_safe.
  - intros Hplain. by rewrite encodeURIComponent_plain.
Qed.

End ListingProperties.


Lemma getLatestRfcs_limit_witness :
  listingSite (requests freshState) latestUrl = Return latestMarkup
  /\ listingJSDOM latestMarkup = Return latestDocument
  /\ (getLatestRfcs listingSite listingJSDOM
        (Some (Finite (QArith_base.Qmake 1 2))) freshState).1
     = Return (take 1 (omap latestEntry (querySelectorAllWhere tableRow latestDocument))).
Proof.
  assert (listingSite (requests freshState) latestUrl = Return latestMarkup) as Hpage
    by (by vm_compute).
  assert (listingJSDOM latestMarkup = Return latestDocument) as Htree by (by vm_compute).
  split; [exact Hpage|]. split; [exact Htree|].
  exact (proj1 (getLatestRfcs_limit listingSite listingJSDOM
                  (Some (Finite (QArith_base.Qmake 1 2))) latestMarkup latestDocument
                  freshState Hpage Htree)).
Defined.

Lemma searchRfcs_query_encoded_witness :
  Forall (fun c => (c < 65536)%N) (js "http semantics")
  /\ (requests (searchRfcs listingSite listingJSDOM samePath (js "http semantics")
                  freshState).2
      = requests freshState
      \/ exists query,
           requests (searchRfcs listingSite listingJSDOM samePath (js "http semantics")
                       freshState).2
           = requests freshState ++ [searchUrl query]
           /\ Forall (fun c => querySafe c = true) query).
Proof.
  assert (Forall (fun c => (c < 65536)%N) (js "http semantics")) as Hunits
    by (repeat constructor).
  split; [exact Hunits|].
  exact (proj1 (searchRfcs_query_encoded listingSite listingJSDOM samePath
                  (js "http semantics") freshState Hunits)).
Defined.


(** ** What a labelled field captures *)

Module CaptureFacts.
Import Txt RegExpFacts AbstractFacts LabelFacts LabelledFacts ListingFacts.

Lemma greedyRun_here (p : char -> bool) (k : mstate -> option mstate)
    (r : jstring) (i : nat) (cs : list (nat * jstring)) :
  greedyRun p k i cs r = None -> k {| pos := i; rest := r; caps := cs |} = None.
Proof.
  destruct r as [|c t]; cbn [greedyRun]; [done|].
  destruct (p c); [|done]. by destruct (greedyRun p k (S i) cs t).
Qed.

(** A greedy run stops where what follows succeeds and, if the class goes
    on, fails one character further. *)
Lemma greedyRun_stop (p : char -> bool) (k : mstate -> option mstate)
    (r : jstring) (cs : list (nat * jstring)) (m : mstate) :
  forall i : nat,
    greedyRun p k i cs r = Some m ->
    exists n,
      k {| pos := i + n; rest := drop n r; caps := cs |} = Some m
      /\ forall c t, drop n r = c :: t -> p c = true ->
                     k {| pos := i + S n; rest := t; caps := cs |} = None.
Proof.
  induction r as [|c t IH]; intros i H; cbn [greedyRun] in H.
  - exists 0. rewrite Nat.add_0_r. by split.
  - destruct (p c) eqn:Hc.
    + destruct (greedyRun p k (S i) cs t) as [m'|] eqn:Hrun.
      * injection H as ->. apply IH in Hrun as (n & Hk & Hmax). exists (S n).
        replace (i + S n) with (S i + n) by lia. split; [done|].
        intros c' t' Hd Hc'. replace (i + S (S n)) with (S i + S n) by lia.
        by apply (Hmax c' t').
      * exists 0. rewrite Nat.add_0_r. split; [done|].
        intros c' t' [= <- <-] _. apply greedyRun_here in Hrun.
        by replace (i + 1) with (S i) by lia.
    + exists 0. rewrite Nat.add_0_r. split; [done|].
      intros c' t' [= <- <-] Hc'. congruence.
Qed.

Lemma lazyRun_reaches (p : char -> bool) (k : mstate -> option mstate)
    (r : jstring) (cs : list (nat * jstring)) (m : mstate) :
  forall i : nat,
    lazyRun p k i cs r = Some m ->
    exists j, Forall (fun c => p c = true) (take j r)
              /\ k {| pos := i + j; rest := drop j r; caps := cs |} = Some m.
Proof.
  induction r as [|c t IH]; intros i H; cbn [lazyRun] in H.
  - destruct (k _) eqn:Hk; [|done]. injection H as ->. exists 0.
    rewrite Nat.add_0_r. by split.
  - destruct (k _) eqn:Hk.
    + injection H as ->. exists 0. rewrite Nat.add_0_r. by split.
    + destruct (p c) eqn:Hc; [|done]. apply IH in H as (j & Hall & Hj).
      exists (S j). replace (i + S j) with (S i + j) by lia.
      split; [by constructor|done].
Qed.

Lemma lazyRun_some (p : char -> bool) (k : mstate -> option mstate)
    (cs : list (nat * jstring)) (j : nat) :
  forall (r : jstring) (i : nat),
    Forall (fun c => p c = true) (take j r) -> j <= length r ->
    k {| pos := i + j; rest := drop j r; caps := cs |} ≠ None ->
    lazyRun p k i cs r ≠ None.
Proof.
  induction j as [|j IH]; intros r i Hall Hj Hk.
  - rewrite Nat.add_0_r in Hk. simpl in Hk.
    destruct r; cbn [lazyRun]; by destruct (k _).
  - destruct r as [|c t]; [simpl in Hj; lia|]. cbn [lazyRun].
    destruct (k {| pos := i; rest := c :: t; caps := cs |}); [done|].
    cbn [take] in Hall. apply Forall_cons in Hall as [Hc Hall]. rewrite Hc.
    apply IH; [done|simpl in Hj; lia|]. by replace (S i + j) with (i + S j) by lia.
Qed.

Section Capture.

Variable f : flags.
Variables a b : string.
Variable term : regex.
Variable termAt : jstring -> bool.
Hypothesis Hterm :
  forall (s : mstate) (k : mstate -> option mstate),
    (forall s', k s' = Some s') ->
    if termAt (rest s)
    then exists m, rmatch f term s k = Some m /\ caps m = caps s
    else rmatch f term s k = None.

Local Abbreviation Field := (Seq (Group 1 (Star false Dot)) (Seq term Eps)).

(** The value, from a state: some characters that the dot accepts, then the
    end of the field. *)
Lemma rmatch_Field (s : mstate) (m : mstate) :
  rmatch f Field s Some = Some m ->
  exists j, Forall (fun c => dotClass f c = true) (take j (rest s))
            /\ termAt (drop j (rest s)) = true
            /\ caps m = (1, take j (rest s)) :: caps s.
Proof using Hterm.
  rewrite rmatch_Seq, rmatch_Group, rmatch_lazy_dot.
  intros (j & Hall & Hj)%lazyRun_reaches. cbn [pos rest caps] in Hj.
  exists j. split; [done|].
  pose proof (Hterm {| pos := pos s + j; rest := drop j (rest s);
                       caps := (1, take (pos s + j - pos s) (rest s)) :: caps s |}
                (fun s' => rmatch f Eps s' Some) (fun _ => eq_refl)) as Hlast.
  cbn [rest caps] in Hlast. destruct (termAt (drop j (rest s))).
  - destruct Hlast as (m' & Hm' & Hcaps). split; [done|].
    rewrite rmatch_Seq in Hj. rewrite Hm' in Hj. injection Hj as <-.
    rewrite Hcaps. by replace (pos s + j - pos s) with j by lia.
  - rewrite rmatch_Seq in Hj. by rewrite Hlast in Hj.
Qed.

Lemma rmatch_Field_some (s : mstate) (j : nat) :
  Forall (fun c => dotClass f c = true) (take j (rest s)) -> j <= length (rest s) ->
  termAt (drop j (rest s)) = true ->
  rmatch f Field s Some ≠ None.
Proof using Hterm.
  intros Hall Hj Hend. rewrite rmatch_Seq, rmatch_Group, rmatch_lazy_dot.
  apply (lazyRun_some _ _ _ j); [done|done|]. cbn [pos rest caps].
  pose proof (Hterm {| pos := pos s + j; rest := drop j (rest s);
                       caps := (1, take (pos s + j - pos s) (rest s)) :: caps s |}
                (fun s' => rmatch f Eps s' Some) (fun _ => eq_refl)) as Hlast.
  cbn [rest caps] in Hlast. rewrite Hend in Hlast. destruct Hlast as (m' & Hm' & _).
  rewrite rmatch_Seq. by rewrite Hm'.
Qed.

(** What a labelled field captures never starts with white space: the
    white space after the colon is taken before the capture starts. *)
Lemma exec_labelled_capture (text : jstring) (m : mstate) :
  exec f (labelled a b term) text = Some m ->
  exists g, group 1 m = Some g
            /\ Forall (fun c => dotClass f c = true) g
            /\ isSpace <$> head g ≠ Some true.
Proof using Hterm.
  unfold exec. intros (i & suffix & H)%search_reaches.
  change (labelled a b term)
    with (Seq (Alt (Lit a) (Lit b)) (Seq (Lit ":") (Seq (Star true Space) Field))) in H.
  rewrite rmatch_Seq in H. apply rmatch_reaches in H as (s0 & H).
  rewrite rmatch_Seq in H. apply rmatch_reaches in H as (s1 & H).
  rewrite rmatch_Seq, rmatch_star_space in H.
  apply greedyRun_stop in H as (n & Hk & Hmax).
  apply rmatch_Field in Hk as (j & Hall & Hend & Hcaps). cbn [rest caps] in *.
  exists (take j (drop n (rest s1))). split; [|split; [done|]].
  - unfold group. by rewrite Hcaps.
  - destruct (drop n (rest s1)) as [|c t] eqn:Hd; [by rewrite take_nil|].
    destruct j as [|j]; [done|]. cbn [take head fmap option_fmap option_map].
    intros [= Hc]. specialize (Hmax c t eq_refl Hc).
    cbn [take] in Hall. apply Forall_cons in Hall as [_ Hall]. cbn [drop] in Hend.
    destruct (decide (j <= length t)) as [Hj|Hj].
    + by apply (rmatch_Field_some {| pos := pos s1 + S n; rest := t; caps := caps s1 |} j).
    + apply (rmatch_Field_some {| pos := pos s1 + S n; rest := t; caps := caps s1 |}
               (length t)); cbn [rest].
      * rewrite firstn_all. rewrite take_ge in Hall by lia. done.
      * done.
      * rewrite drop_all. rewrite drop_ge in Hend by lia. done.
      * exact Hmax.
Qed.

End Capture.

Lemma capture1_inv (m : option mstate) (g : jstring) :
  capture1 m = Some g -> exists m', m = Some m' /\ group 1 m' = Some g /\ g ≠ [].
Proof.
  destruct m as [m'|]; [|done]. cbn [capture1].
  destruct (group 1 m') as [g'|] eqn:Hg; [|done]. destruct g'; cbn [truthy]; [done|].
  intros [= <-]. by exists m'.
Qed.

End CaptureFacts.

Import CaptureFacts.

(** X20. The title of a text document is never empty: it is the default,
    "RFC" and the number, or a trimmed capture that holds a character that
    is not white space; in that case it has no white space at its ends and
    no line terminator inside. *)
Theorem text_title_never_empty (text rfcNumber url : jstring) :
  RfcMetadata.title (metadata (Txt.parseTxtRfc text rfcNumber url)) ≠ []
  /\ (RfcMetadata.title (metadata (Txt.parseTxtRfc text rfcNumber url))
      = js "RFC " ++ rfcNumber
      \/ noOuterSpace (RfcMetadata.title (metadata (Txt.parseTxtRfc text rfcNumber url)))
         /\ Forall (fun c => isLineTerminator c = false)
              (RfcMetadata.title (metadata (Txt.parseTxtRfc text rfcNumber url)))).
Proof.
  cbn [metadata Txt.parseTxtRfc RfcMetadata.title]. unfold Txt.extractTitle.
  destruct (capture1 _) as [g|] eqn:Hg; [|split; [done|by left]].
  apply capture1_inv in Hg as (m & Hm & Hgroup & Hne).
  rewrite titleRegex_labelled in Hm.
  apply (exec_labelled_capture Txt.flags_i "Title" "Internet-Draft" Txt.blankLine
           Txt.blankLineAt (rmatch_blankLine_flags Txt.flags_i)) in Hm
    as (g' & Hg' & Hdot & Hhead).
  rewrite Hgroup in Hg'. injection Hg' as <-. split; [|right; split].
  - apply truthy_nonempty, DomFacts.trim_truthy.
    destruct g as [|c g]; [done|]. constructor. cbn in Hhead.
    by destruct (isSpace c).
  - apply trim_noOuterSpace.
  - apply Forall_forall. intros c Hc%trim_elem.
    rewrite Forall_forall in Hdot. specialize (Hdot c Hc).
    unfold dotClass in Hdot. cbn in Hdot. by destruct (isLineTerminator c).
Qed.


(** ** A result of the search with the usual title *)

Module TitleFacts.
Import Txt RegExpFacts AbstractFacts LabelFacts ListingFacts.

Lemma isDigit_not_space (c : char) : isDigit c = true -> isSpace c = false.
Proof.
  unfold isDigit, isSpace, isWhiteSpace, isLineTerminator.
  intros [?%N.leb_le ?%N.leb_le]%andb_true_iff.
  repeat (apply orb_false_iff; split); try (apply andb_false_iff; left);
    try (apply N.eqb_neq; lia); apply N.leb_gt; lia.
Qed.

(** [\s+] over a run of white space that ends before [r]. *)
Lemma rmatch_plus_space (f : flags) (run r : jstring) (i : nat)
    (cs : list (nat * jstring)) (k : mstate -> option mstate) (m : mstate) :
  run ≠ [] -> Forall (fun c => isSpace c = true) run ->
  match r with c :: _ => isSpace c = false | [] => True end ->
  k {| pos := length run + i; rest := r; caps := cs |} = Some m ->
  rmatch f (Plus Space) {| pos := i; rest := run ++ r; caps := cs |} k = Some m.
Proof.
  intros Hne Hrun Hr Hk. destruct run as [|c run]; [done|].
  apply Forall_cons in Hrun as [Hc Hrun].
  unfold Plus. rewrite rmatch_Seq.
  change (rmatch f Space ?s ?k') with (step isSpace s k').
  unfold step. cbn [rest app]. rewrite Hc.
  rewrite rmatch_star_space. unfold advance. cbn [pos rest caps].
  apply greedyRun_max; [done| |done].
  by replace (length run + S i) with (length (c :: run) + i) by (simpl; lia).
Qed.

(** [\d+] over a run of digits that ends before [r]. *)
Lemma rmatch_plus_digit (f : flags) (run r : jstring) (i : nat)
    (cs : list (nat * jstring)) (k : mstate -> option mstate) (m : mstate) :
  run ≠ [] -> Forall (fun c => isDigit c = true) run ->
  match r with c :: _ => isDigit c = false | [] => True end ->
  k {| pos := length run + i; rest := r; caps := cs |} = Some m ->
  rmatch f (Plus Digit) {| pos := i; rest := run ++ r; caps := cs |} k = Some m.
Proof.
  intros Hne Hrun Hr Hk. destruct run as [|c run]; [done|].
  apply Forall_cons in Hrun as [Hc Hrun].
  unfold Plus. rewrite rmatch_Seq.
  change (rmatch f Digit ?s ?k') with (step isDigit s k').
  unfold step. cbn [rest app]. rewrite Hc.
  rewrite rmatch_star_digit. unfold advance. cbn [pos rest caps].
  apply greedyRun_max; [done| |done].
  by replace (length run + S i) with (length (c :: run) + i) by (simpl; lia).
Qed.

(** [\s*] before the end of the expression takes the white space there
    is. *)
Lemma greedyRun_trimStart (r : jstring) (cs : list (nat * jstring)) :
  forall i : nat,
    exists m, greedyRun isSpace Some i cs r = Some m /\ rest m = trimStart r.
Proof.
  induction r as [|c t IH]; intros i; cbn [greedyRun trimStart]; [by eexists|].
  destruct (isSpace c); [|by eexists].
  destruct (IH (S i)) as (m & -> & Hm). by exists m.
Qed.

Lemma trim_trimStart (s : jstring) : trim (trimStart s) = trim s.
Proof.
  unfold trim. f_equal. induction s as [|c s IH]; [done|]. cbn [trimStart].
  destruct (isSpace c) eqn:Hc; [done|]. cbn [trimStart]. by rewrite Hc.
Qed.

Lemma head_digit (digits tail : jstring) :
  digits ≠ [] -> Forall (fun c => isDigit c = true) digits ->
  match digits ++ tail with c :: _ => isSpace c = false | [] => True end.
Proof.
  intros Hne Hd. destruct digits as [|c digits]; [done|].
  apply Forall_cons in Hd as [Hc _]. by apply isDigit_not_space.
Qed.

(** The number, when the title starts with "RFC", white space and
    digits. *)
Lemma exec_rfcMatchRegex_head (label gap digits tail : jstring) :
  equalsIgnoreCase label (js "RFC") ->
  gap ≠ [] -> Forall (fun c => isSpace c = true) gap ->
  digits ≠ [] -> Forall (fun c => isDigit c = true) digits ->
  match tail with c :: _ => isDigit c = false | [] => True end ->
  exists m, exec flags_i rfcMatchRegex (label ++ gap ++ digits ++ tail) = Some m
            /\ group 1 m = Some digits.
Proof.
  intros Hlabel Hgap Hspaces Hdigits Hall Htail.
  exists {| pos := length digits + (length gap + (length (js "RFC") + 0));
            rest := tail; caps := [(1, digits)] |}.
  split; [|reflexivity]. unfold exec.
  assert (rmatch flags_i rfcMatchRegex
            {| pos := 0; rest := label ++ gap ++ digits ++ tail; caps := [] |} Some
          = Some {| pos := length digits + (length gap + (length (js "RFC") + 0));
                    rest := tail; caps := [(1, digits)] |}) as Hm.
  { change rfcMatchRegex
      with (Seq (seq (map Chr (js "RFC")))
              (Seq (Plus Space) (Seq (Group 1 (Plus Digit)) Eps))).
    rewrite rmatch_Seq.
    rewrite (rmatch_word flags_i eq_refl (js "RFC") label (gap ++ digits ++ tail))
      by done.
    cbn [pos caps]. rewrite rmatch_Seq.
    apply rmatch_plus_space; [done|done|by apply head_digit|].
    rewrite rmatch_Seq, rmatch_Group.
    apply rmatch_plus_digit; [done|done|done|]. cbn [rmatch pos rest caps].
    do 3 f_equal.
    replace (length digits + (length gap + (length (js "RFC") + 0))
             - (length gap + (length (js "RFC") + 0))) with (length digits) by lia.
    by rewrite take_app_length. }
  destruct (label ++ gap ++ digits ++ tail); cbn [search]; by rewrite Hm.
Qed.

(** The title, when it starts with "RFC", white space, digits and a
    colon: what follows the colon and the white space after it. *)
Lemma replaceFirst_rfcPrefixRegex (label gap digits rest' : jstring) :
  equalsIgnoreCase label (js "RFC") ->
  gap ≠ [] -> Forall (fun c => isSpace c = true) gap ->
  digits ≠ [] -> Forall (fun c => isDigit c = true) digits ->
  replaceFirst flags_i rfcPrefixRegex (label ++ gap ++ digits ++ js ":" ++ rest')
  = trimStart rest'.
Proof.
  intros Hlabel Hgap Hspaces Hdigits Hall. unfold replaceFirst.
  destruct (greedyRun_trimStart rest' []
              (length (js ":") + (length digits + (length gap + (length (js "RFC") + 0)))))
    as (m & Hm & Hrest).
  assert (rmatch flags_i rfcPrefixRegex
            {| pos := 0; rest := label ++ gap ++ digits ++ js ":" ++ rest'; caps := [] |}
            Some = Some m) as Hhere.
  { change rfcPrefixRegex
      with (Seq (seq (map Chr (js "RFC")))
              (Seq (Plus Space)
                 (Seq (Plus Digit)
                    (Seq (seq (map Chr (js ":"))) (Seq (Star true Space) Eps))))).
    rewrite rmatch_Seq.
    rewrite (rmatch_word flags_i eq_refl (js "RFC") label
               (gap ++ digits ++ js ":" ++ rest')) by done.
    cbn [pos caps]. rewrite rmatch_Seq.
    apply rmatch_plus_space; [done|done|by apply head_digit|].
    rewrite rmatch_Seq. apply rmatch_plus_digit; [done|done|done|].
    rewrite rmatch_Seq.
    rewrite (rmatch_word flags_i eq_refl (js ":") (js ":") rest') by done.
    cbn [pos caps]. rewrite rmatch_Seq, rmatch_star_space. cbn [pos rest caps].
    exact Hm. }
  destruct (label ++ gap ++ digits ++ js ":" ++ rest'); cbn [replaceFrom];
    by rewrite Hhere.
Qed.

End TitleFacts.

Section SearchTypical.

Variable getAttribute : node -> jstring -> option jstring.

Import TitleFacts.

(** X21. A result of the search whose link reads "RFC", white space, a
    number, a colon and a title: the entry has that number, and that title
    without the white space around it. *)
Theorem search_entry_typical
    (result titleElement : located) (label gap digits heading : jstring)
    (Hlink : elQuerySelector [Descendant (Tag (js "h4")) (Tag (js "a"))] result
             = Some titleElement)
    (Htext : trim (textContent titleElement.2)
             = label ++ gap ++ digits ++ js ":" ++ heading)
    (Hlabel : equalsIgnoreCase label (js "RFC"))
    (Hgap : gap ≠ [] /\ Forall (fun c => isSpace c = true) gap)
    (Hdigits : digits ≠ [] /\ Forall (fun c => isDigit c = true) digits) :
  exists entry,
    searchEntry getAttribute result = Some entry
    /\ RfcMetadata.number entry = digits
    /\ RfcMetadata.title entry = trim heading.
Proof.
  destruct Hgap as [Hgap Hspaces], Hdigits as [Hdigits Hall].
  unfold searchEntry. rewrite Hlink. cbn [mbind option_bind trimmedText]. rewrite Htext.
  destruct (exec_rfcMatchRegex_head label gap digits (js ":" ++ heading))
    as (m & -> & Hgroup); try done.
  cbn [mbind option_bind]. eexists. split; [reflexivity|].
  cbn [RfcMetadata.number RfcMetadata.title]. rewrite Hgroup. split; [done|].
  rewrite replaceFirst_rfcPrefixRegex by done. apply trim_trimStart.
Qed.

End SearchTypical.

Lemma search_entry_typical_witness :
  elQuerySelector [Descendant (Tag (js "h4")) (Tag (js "a"))]
    ([(js "body", []); (js "html", [])], searchHit)
  = Some ([(js "h4", []); (js "div", [js "search-listing-content"]);
           (js "body", []); (js "html", [])],
          el "a" [txt " RFC 2616: Hypertext Transfer Protocol "])
  /\ trim (textContent (el "a" [txt " RFC 2616: Hypertext Transfer Protocol "]))
     = js "RFC" ++ js " " ++ js "2616" ++ js ":" ++ js " Hypertext Transfer Protocol"
  /\ equalsIgnoreCase (js "RFC") (js "RFC")
  /\ (js " " ≠ [] /\ Forall (fun c => isSpace c = true) (js " "))
  /\ (js "2616" ≠ [] /\ Forall (fun c => isDigit c = true) (js "2616"))
  /\ exists entry,
       searchEntry samePath ([(js "body", []); (js "html", [])], searchHit) = Some entry
       /\ RfcMetadata.number entry = js "2616"
       /\ RfcMetadata.title entry = js "Hypertext Transfer Protocol".
Proof.
  assert (elQuerySelector [Descendant (Tag (js "h4")) (Tag (js "a"))]
            ([(js "body", []); (js "html", [])], searchHit)
          = Some ([(js "h4", []); (js "div", [js "search-listing-content"]);
                   (js "body", []); (js "html", [])],
                  el "a" [txt " RFC 2616: Hypertext Transfer Protocol "])) as Hlink
    by (by vm_compute).
  assert (trim (textContent (el "a" [txt " RFC 2616: Hypertext Transfer Protocol "]))
          = js "RFC" ++ js " " ++ js "2616" ++ js ":" ++ js " Hypertext Transfer Protocol")
    as Htext by (by vm_compute).
  assert (equalsIgnoreCase (js "RFC") (js "RFC")) as Hlabel by reflexivity.
  assert (js " " ≠ [] /\ Forall (fun c => isSpace c = true) (js " ")) as Hgap
    by (split; [done|repeat constructor]).
  assert (js "2616" ≠ [] /\ Forall (fun c => isDigit c = true) (js "2616")) as Hdigits
    by (split; [done|repeat constructor]).
  repeat (split; [assumption|]).
  exact (search_entry_typical samePath _ _ _ _ _ _ Hlink Htext Hlabel Hgap Hdigits).
Defined.


Lemma replaceNewlines_no_LF (s : jstring) : LF ∉ replaceNewlines s.
Proof.
  unfold replaceNewlines. intros (c & Hc & _)%list_elem_of_fmap.
  destruct (N.eqb_spec c LF) as [Heq|Hne]; [done|]. by symmetry in Hc.
Qed.

(** X22. The date, the status and the abstract of a text document have no
    white space at their ends; the status and the abstract hold no line
    feed, since every line feed of the capture became a space, and the date
    holds no line terminator at all, since its capture stays on one
    line. *)
Theorem text_metadata_single_line (text rfcNumber url : jstring) :
  let m := metadata (Txt.parseTxtRfc text rfcNumber url) in
  noOuterSpace (RfcMetadata.date m)
  /\ Forall (fun c => isLineTerminator c = false) (RfcMetadata.date m)
  /\ noOuterSpace (RfcMetadata.status m) /\ (LF ∉ RfcMetadata.status m)
  /\ noOuterSpace (RfcMetadata.abstract m) /\ (LF ∉ RfcMetadata.abstract m).
Proof.
  cbv zeta. cbn [metadata Txt.parseTxtRfc RfcMetadata.date RfcMetadata.status
    RfcMetadata.abstract].
  unfold Txt.extractDate, Txt.extractStatus, Txt.extractAbstract.
  split; [|split; [|split; [|split; [|split]]]].
  - destruct (capture1 _); [apply trim_noOuterSpace|done].
  - destruct (capture1 _) as [g|] eqn:Hg; [|done].
    apply capture1_inv in Hg as (m & Hm & Hgroup & _).
    rewrite dateRegex_labelled in Hm.
    apply (exec_labelled_capture Txt.flags_i "Date" "Published"
             (seq [Opt (Chr CR); Chr LF]) lineBreakAt
             (rmatch_lineBreak_flags Txt.flags_i)) in Hm as (g' & Hg' & Hdot & _).
    rewrite Hgroup in Hg'. injection Hg' as <-.
    apply Forall_forall. intros c Hc%trim_elem.
    rewrite Forall_forall in Hdot. specialize (Hdot c Hc).
    unfold dotClass in Hdot. cbn in Hdot. by destruct (isLineTerminator c).
  - destruct (capture1 _); [apply trim_noOuterSpace|done].
  - destruct (capture1 _); [|apply not_elem_of_nil].
    intros H%trim_elem. by apply replaceNewlines_no_LF in H.
  - destruct (capture1 _); [apply trim_noOuterSpace|done].
  - destruct (capture1 _); [|apply not_elem_of_nil].
    intros H%trim_elem. by apply replaceNewlines_no_LF in H.
Qed.
